(** * Battle simulation of the pokemon-mcp server

    A shallow embedding of [src/tools/battle_simulation.py]: the status-effect
    manager, the damage formula, the round loop of [simulate_battle] and
    [prepare_pokemon_for_battle], followed by the properties of the
    specification that were checked against them.

    Conventions of the embedding.
    - Python [int] is [Z]; [//] is [Z.div] (both round towards minus
      infinity for a positive divisor).
    - Python [float] is the kernel's binary64 [float]; conversions between
      [int] and [float] raise as CPython's do.
    - Exceptions are the constructors of [Exn], carried by [Result].
    - Python [str] is [string]: a sequence of characters whose code points
      are below 256, a character being the [ascii] of that number.
    - The [random] module is a stream of raw draws with a cursor; every call
      consumes one draw.
    - Mutable objects ([Pokemon], the lists and dict inside it) are values
      of a state that is passed explicitly; the two combatants are the two
      slots of [BattleState], and a Python reference to one of them is a
      [Side].  The two combatants are two objects, as [BattleSimulationTool]
      builds them; [==] on them is the dataclass equality, by value. *)

From Stdlib Require Import ZArith Floats Ascii String.
From stdpp Require Import base decidable option list gmap strings pretty.

Local Open Scope string_scope.
Local Open Scope Z_scope.

(* Decimal literals such as 0.85 denote the nearest binary64 value, as in Python. *)
Set Warnings "-inexact-float".

(** ** Exceptions *)

Inductive Exn : Type :=
  | ZeroDivisionError
  | OverflowError
  | ValueError
  | IndexError.

Inductive Result (A : Type) : Type :=
  | Ok (a : A)
  | Raise (e : Exn).

Arguments Ok {A} a.
Arguments Raise {A} e.

#[global] Instance Result_ret : MRet Result := fun _ a => Ok a.

#[global] Instance Result_bind : MBind Result := fun _ _ f m =>
  match m with
  | Ok a => f a
  | Raise e => Raise e
  end.

(** ** Python numbers *)

Module Py.

(** [float(n)] for an [int] [n]: rounded to nearest even, and
    [OverflowError] when the rounded value is not finite. *)
Definition int_to_float (n : Z) : Result float :=
  match binary_normalize prec emax n 0 false with
  | S754_infinity _ => Raise OverflowError
  | sf => Ok (SF2Prim sf)
  end.

(** [int(x)] for a [float] [x]: truncation towards zero, [ValueError] on
    a NaN and [OverflowError] on an infinity. *)
Definition float_to_int (x : float) : Result Z :=
  match Prim2SF x with
  | S754_zero _ => Ok 0
  | S754_finite s m e =>
      let v := Z.shiftl (Z.pos m) e in
      Ok (if s then - v else v)
  | S754_infinity _ => Raise OverflowError
  | S754_nan => Raise ValueError
  end.

(** An [int] as an exact, unrounded binary number. *)
Definition int_to_spec (n : Z) : spec_float :=
  match n with
  | Z0 => S754_zero false
  | Zpos p => S754_finite false p 0
  | Zneg p => S754_finite true p 0
  end.

(** [a / b] on two [int]s: the correctly rounded quotient. *)
Definition int_truediv (a b : Z) : Result float :=
  if decide (b = 0) then Raise ZeroDivisionError
  else
    match SFdiv prec emax (int_to_spec a) (int_to_spec b) with
    | S754_infinity _ => Raise OverflowError
    | sf => Ok (SF2Prim sf)
    end.

(** [x / y] on two [float]s. *)
Definition float_truediv (x y : float) : Result float :=
  if PrimFloat.is_zero y then Raise ZeroDivisionError
  else Ok (PrimFloat.div x y).

(** Mixed arithmetic: the [int] operand is converted first. *)
Definition float_mul_int (x : float) (n : Z) : Result float :=
  y ← int_to_float n; Ok (PrimFloat.mul x y).

Definition float_add_int (x : float) (n : Z) : Result float :=
  y ← int_to_float n; Ok (PrimFloat.add x y).

Definition float_div_int (x : float) (n : Z) : Result float :=
  y ← int_to_float n; float_truediv x y.

(** [str.lower()].  Below code point 256 the characters with a lowercase
    mapping of their own are the letters A-Z (65-90) and the Latin-1 capitals
    U+00C0-U+00DE (192-222) without the multiplication sign U+00D7 (215);
    each is mapped to the character 32 places further, and every other
    character to itself. *)
Definition lower_char (c : ascii) : ascii :=
  let n := Ascii.nat_of_ascii c in
  if decide (65 ≤ n ≤ 90 ∨ (192 ≤ n ≤ 222 ∧ n ≠ 215))%nat
  then Ascii.ascii_of_nat (n + 32) else c.

Fixpoint lower (s : string) : string :=
  match s with
  | EmptyString => EmptyString
  | String c s' => String (lower_char c) (lower s')
  end.

(** [sep.join(l)]. *)
Definition join (sep : string) (l : list string) : string :=
  String.concat sep l.

(** [l.remove(x)] on a list that holds [x]: the first occurrence goes. *)
Fixpoint remove `{EqDecision A} (x : A) (l : list A) : list A :=
  match l with
  | [] => []
  | y :: l' => if decide (x = y) then l' else y :: remove x l'
  end.

(** [x in l]. *)
Definition contains `{EqDecision A} (x : A) (l : list A) : bool :=
  bool_decide (x ∈ l).

End Py.

(** ** The random module

    A generator is a stream of raw draws and a cursor.  [random()] is a
    53-bit integer scaled by [2^-53], [randint(a, b)] is [a] plus a draw
    below [b - a + 1], [choice(seq)] indexes [seq] by a draw below its
    length, and [uniform(a, b)] is [a + (b - a) * random()]. *)

Record Random : Type := mkRandom {
  stream : nat → Z;
  cursor : nat
}.

Module random.

Definition next (r : Random) : Z * Random :=
  (stream r (cursor r), mkRandom (stream r) (S (cursor r))).

Definition two53 : Z := 9007199254740992.

Definition random (r : Random) : float * Random :=
  let '(k, r') := next r in
  (PrimFloat.div
     (SF2Prim (binary_normalize prec emax (k `mod` two53) 0 false))
     (SF2Prim (binary_normalize prec emax two53 0 false)), r').

Definition randint (a b : Z) (r : Random) : Z * Random :=
  let '(k, r') := next r in
  (a + k `mod` (b - a + 1), r').

Definition choice {A : Type} (seq : list A) (r : Random) : option A * Random :=
  let '(k, r') := next r in
  (seq !! Z.to_nat (k `mod` Z.of_nat (length seq)), r').

Definition uniform (a b : float) (r : Random) : float * Random :=
  let '(x, r') := random r in
  (PrimFloat.add a (PrimFloat.mul (PrimFloat.sub b a) x), r').

End random.

(* The draws stay folded under [simpl]; [vm_compute] still evaluates them. *)
#[global] Opaque random.random random.randint random.choice random.uniform.

(** ** Data model *)

(** The constants of class [StatusEffect]. *)
Inductive StatusEffect : Type :=
  | BURN
  | POISON
  | PARALYSIS
  | SLEEP
  | FREEZE
  | CONFUSION.

#[global] Instance StatusEffect_eq_dec : EqDecision StatusEffect.
Proof. solve_decision. Defined.

#[global] Instance StatusEffect_countable : Countable StatusEffect.
Proof.
  refine (inj_countable'
    (fun s => match s with
              | BURN => 0%nat | POISON => 1%nat | PARALYSIS => 2%nat
              | SLEEP => 3%nat | FREEZE => 4%nat | CONFUSION => 5%nat
              end)
    (fun n => match n with
              | 0%nat => BURN | 1%nat => POISON | 2%nat => PARALYSIS
              | 3%nat => SLEEP | 4%nat => FREEZE | _ => CONFUSION
              end) _).
  intros []; reflexivity.
Defined.

(** The string each constant stands for. *)
Definition status_str (s : StatusEffect) : string :=
  match s with
  | BURN => "burn"
  | POISON => "poison"
  | PARALYSIS => "paralysis"
  | SLEEP => "sleep"
  | FREEZE => "freeze"
  | CONFUSION => "confusion"
  end.

(** A battle move: the dict built by [prepare_pokemon_for_battle]. *)
Record Move : Type := mkMove {
  move_name : string;
  move_type : string;
  move_power : Z;
  move_accuracy : Z;
  move_damage_class : string
}.

#[global] Instance Move_eq_dec : EqDecision Move.
Proof. solve_decision. Defined.

Record Pokemon : Type := mkPokemon {
  name : string;
  hp : Z;
  max_hp : Z;
  attack : Z;
  defense : Z;
  special_attack : Z;
  special_defense : Z;
  speed : Z;
  types : list string;
  moves : list Move;
  status_effects : list StatusEffect;
  status_turns : gmap StatusEffect Z
}.

(** The dataclass compares by value, field by field. *)
#[global] Instance Pokemon_eq_dec : EqDecision Pokemon.
Proof. solve_decision. Defined.

Definition set_status (p : Pokemon) (effects : list StatusEffect)
    (turns : gmap StatusEffect Z) : Pokemon :=
  mkPokemon (name p) (hp p) (max_hp p) (attack p) (defense p)
    (special_attack p) (special_defense p) (speed p) (types p) (moves p)
    effects turns.

(** One entry of the battle log: [{'turn': n, 'actions': [...]}]. *)
Record TurnRecord : Type := mkTurn {
  turn : Z;
  actions : list string
}.

Record BattleResult : Type := mkBattleResult {
  winner : option string;
  turns : list TurnRecord;
  battle_summary : string
}.

(** ** StatusEffectManager *)

Module StatusEffectManager.

Definition major_statuses : list StatusEffect :=
  [BURN; POISON; PARALYSIS; SLEEP; FREEZE].

(** The loop that removes the major conditions already held. *)
Definition remove_major (p : Pokemon) : Pokemon :=
  foldl
    (fun q existing_status =>
       if Py.contains existing_status (status_effects q)
       then set_status q (Py.remove existing_status (status_effects q))
              (delete existing_status (status_turns q))
       else q)
    p major_statuses.

Definition apply_status_effect (p : Pokemon) (status : StatusEffect)
    (r : Random) : string * Pokemon * Random :=
  if Py.contains status (status_effects p)
  then (name p +:+ " is already " +:+ status_str status +:+ "!", p, r)
  else
    let p1 :=
      if Py.contains status major_statuses then remove_major p else p in
    let p2 := set_status p1 (status_effects p1 ++ [status]) (status_turns p1) in
    let '(p3, r') :=
      match status with
      | SLEEP =>
          let '(n, r') := random.randint 1 3 r in
          (set_status p2 (status_effects p2) (<[SLEEP := n]> (status_turns p2)), r')
      | CONFUSION =>
          let '(n, r') := random.randint 2 5 r in
          (set_status p2 (status_effects p2) (<[CONFUSION := n]> (status_turns p2)), r')
      | _ => (p2, r)
      end in
    (name p +:+ " is now " +:+ status_str status +:+ "!", p3, r').

(** The loop of [process_status_damage] over a copy of the list. *)
Fixpoint status_damage_loop (p : Pokemon) (l : list StatusEffect)
    (damage : Z) (messages : list string) : Z * list string :=
  match l with
  | [] => (damage, messages)
  | BURN :: l' =>
      let burn_damage := Z.max 1 (max_hp p / 16) in
      status_damage_loop p l' (damage + burn_damage)
        (messages ++ [name p +:+ " is hurt by its burn! (-" +:+
                      pretty burn_damage +:+ " HP)"])
  | POISON :: l' =>
      let poison_damage := Z.max 1 (max_hp p / 8) in
      status_damage_loop p l' (damage + poison_damage)
        (messages ++ [name p +:+ " is hurt by poison! (-" +:+
                      pretty poison_damage +:+ " HP)"])
  | _ :: l' => status_damage_loop p l' damage messages
  end.

Definition process_status_damage (p : Pokemon) : Z * string :=
  let '(damage, messages) := status_damage_loop p (status_effects p) 0 [] in
  (damage, Py.join "; " messages).

(** The loop of [can_move] over a copy [l] of the list; [p] is the
    combatant as mutated so far. *)
Fixpoint can_move_loop (l : list StatusEffect) (p : Pokemon)
    (messages : list string) (r : Random) : (bool * string) * Pokemon * Random :=
  match l with
  | [] => ((true, Py.join "; " messages), p, r)
  | PARALYSIS :: l' =>
      let '(x, r') := random.random r in
      if PrimFloat.ltb x 0.25
      then ((false, name p +:+ " is paralyzed and can't move!"), p, r')
      else can_move_loop l' p messages r'
  | SLEEP :: l' =>
      let turns_left := default 0 (status_turns p !! SLEEP) in
      if bool_decide (turns_left > 0) then
        if bool_decide (turns_left - 1 ≤ 0) then
          ((true, name p +:+ " woke up!"),
           set_status p (Py.remove SLEEP (status_effects p))
             (delete SLEEP (status_turns p)), r)
        else
          ((false, name p +:+ " is fast asleep!"),
           set_status p (status_effects p)
             (<[SLEEP := turns_left - 1]> (status_turns p)), r)
      else can_move_loop l' p messages r
  | FREEZE :: l' =>
      let '(x, r') := random.random r in
      if PrimFloat.ltb x 0.2
      then ((true, name p +:+ " thawed out!"),
            set_status p (Py.remove FREEZE (status_effects p)) (status_turns p), r')
      else ((false, name p +:+ " is frozen solid!"), p, r')
  | CONFUSION :: l' =>
      let turns_left := default 0 (status_turns p !! CONFUSION) in
      if bool_decide (turns_left > 0) then
        if bool_decide (turns_left - 1 ≤ 0) then
          can_move_loop l'
            (set_status p (Py.remove CONFUSION (status_effects p))
               (delete CONFUSION (status_turns p)))
            (messages ++ [name p +:+ " snapped out of confusion!"]) r
        else
          let p' := set_status p (status_effects p)
                      (<[CONFUSION := turns_left - 1]> (status_turns p)) in
          let '(x, r') := random.random r in
          if PrimFloat.ltb x 0.5
          then ((false, name p +:+ " is confused and hurt itself!"), p', r')
          else can_move_loop l' p' messages r'
      else can_move_loop l' p messages r
  | _ :: l' => can_move_loop l' p messages r
  end.

Definition can_move (p : Pokemon) (r : Random)
    : (bool * string) * Pokemon * Random :=
  can_move_loop (status_effects p) p [] r.

Definition modify_damage (p : Pokemon) (damage : Z) (is_physical : bool) : Z :=
  if Py.contains BURN (status_effects p) && is_physical
  then damage / 2
  else damage.

End StatusEffectManager.

(** ** The data provider

    [get_type_effectiveness] reads one row of [type_effectiveness_view] per
    defending type; the view is the part of the database the simulator
    consumes. *)

Record PokemonDatabase : Type := mkDatabase {
  type_effectiveness_view : string → string → option float
}.

Definition get_type_effectiveness (db : PokemonDatabase)
    (attacking_type : string) (defending_types : list string) : float :=
  foldl
    (fun total_effectiveness defending_type =>
       match type_effectiveness_view db attacking_type defending_type with
       | Some row => PrimFloat.mul total_effectiveness row
       | None => total_effectiveness
       end)
    1%float defending_types.

(** ** BattleSimulator *)

Inductive Side : Type := P1 | P2.

#[global] Instance Side_eq_dec : EqDecision Side.
Proof. solve_decision. Defined.

(** The local variables of [simulate_battle] that live across rounds, the
    two combatants and the generator. *)
Record BattleState : Type := mkState {
  pokemon1 : Pokemon;
  pokemon2 : Pokemon;
  current_hp1 : Z;
  current_hp2 : Z;
  turns_log : list TurnRecord;
  turn_count : Z;
  rng : Random
}.

Module BattleSimulator.

Import StatusEffectManager.

Definition move_status_map : list (string * (StatusEffect * float)) :=
  [ ("flamethrower", (BURN, 0.1%float));
    ("fire-blast", (BURN, 0.1%float));
    ("ember", (BURN, 0.1%float));
    ("fire-punch", (BURN, 0.1%float));
    ("thunderbolt", (PARALYSIS, 0.1%float));
    ("thunder-shock", (PARALYSIS, 0.1%float));
    ("thunder", (PARALYSIS, 0.3%float));
    ("nuzzle", (PARALYSIS, 1.0%float));
    ("poison-sting", (POISON, 0.3%float));
    ("toxic", (POISON, 0.9%float));
    ("poison-jab", (POISON, 0.3%float));
    ("sludge-bomb", (POISON, 0.3%float));
    ("sleep-powder", (SLEEP, 0.75%float));
    ("spore", (SLEEP, 1.0%float));
    ("hypnosis", (SLEEP, 0.6%float));
    ("ice-beam", (FREEZE, 0.1%float));
    ("blizzard", (FREEZE, 0.1%float));
    ("confusion", (CONFUSION, 0.1%float));
    ("psybeam", (CONFUSION, 0.1%float)) ].

Fixpoint dict_get {V : Type} (d : list (string * V)) (k : string) : option V :=
  match d with
  | [] => None
  | (k', v) :: d' => if decide (k = k') then Some v else dict_get d' k
  end.

Definition _get_move_status_chance (move_name : string)
    : option StatusEffect * float :=
  match dict_get move_status_map (Py.lower move_name) with
  | Some (status, chance) => (Some status, chance)
  | None => (None, 0%float)
  end.

Definition level : Z := 50.

(** [((2 * level / 5 + 2) * power * attack_stat / defense_stat) / 50 + 2] *)
Definition base_damage_formula (power attack_stat defense_stat : Z)
    : Result float :=
  t ← Py.int_truediv (2 * level) 5;
  t ← Py.float_add_int t 2;
  t ← Py.float_mul_int t power;
  t ← Py.float_mul_int t attack_stat;
  t ← Py.float_div_int t defense_stat;
  t ← Py.float_div_int t 50;
  Py.float_add_int t 2.

(** Returns [(damage, is_critical, status_inflicted)], the defender as
    mutated and the generator. *)
Definition _calculate_damage (db : PokemonDatabase)
    (attacker defender : Pokemon) (move : Move) (r : Random)
    : Result ((Z * bool * option StatusEffect) * Pokemon * Random) :=
  let power := move_power move in
  if bool_decide (power = 0) || bool_decide (power ≤ 0)
  then Ok ((0, false, None), defender, r)
  else
    let effectiveness :=
      get_type_effectiveness db (move_type move) (types defender) in
    let is_physical := bool_decide (move_damage_class move = "physical") in
    let attack_stat :=
      if is_physical then attack attacker else special_attack attacker in
    let defense_stat :=
      if is_physical then defense defender else special_defense defender in
    base_damage ← base_damage_formula power attack_stat defense_stat;
    let base_damage := PrimFloat.mul base_damage effectiveness in
    let '(x, r) := random.random r in
    crit_chance ← Py.int_truediv 1 16;
    let is_critical := PrimFloat.ltb x crit_chance in
    let base_damage :=
      if is_critical then PrimFloat.mul base_damage 1.5%float else base_damage in
    let '(factor, r) := random.uniform 0.85%float 1.0%float r in
    let damage := PrimFloat.mul base_damage factor in
    let damage :=
      if Py.contains (move_type move) (types attacker)
      then PrimFloat.mul damage 1.5%float else damage in
    damage ← Py.float_to_int damage;
    let damage := modify_damage attacker damage is_physical in
    let '(status_effect, status_chance) :=
      _get_move_status_chance (move_name move) in
    let '(status_inflicted, defender, r) :=
      match status_effect with
      | Some status =>
          let '(x, r) := random.random r in
          if PrimFloat.ltb x status_chance then
            let '(_, defender, r) := apply_status_effect defender status r in
            (Some status, defender, r)
          else (None, defender, r)
      | None => (None, defender, r)
      end in
    Ok ((Z.max 1 damage, is_critical, status_inflicted), defender, r).

(** *** simulate_battle *)

Definition max_turns : Z := 100.

Definition get_pokemon (who : Side) (st : BattleState) : Pokemon :=
  match who with
  | P1 => pokemon1 st
  | P2 => pokemon2 st
  end.

Definition set_pokemon (who : Side) (p : Pokemon) (st : BattleState)
    : BattleState :=
  match who with
  | P1 => mkState p (pokemon2 st) (current_hp1 st) (current_hp2 st)
            (turns_log st) (turn_count st) (rng st)
  | P2 => mkState (pokemon1 st) p (current_hp1 st) (current_hp2 st)
            (turns_log st) (turn_count st) (rng st)
  end.

Definition set_rng (r : Random) (st : BattleState) : BattleState :=
  mkState (pokemon1 st) (pokemon2 st) (current_hp1 st) (current_hp2 st)
    (turns_log st) (turn_count st) r.

Definition set_hp1 (h : Z) (st : BattleState) : BattleState :=
  mkState (pokemon1 st) (pokemon2 st) h (current_hp2 st)
    (turns_log st) (turn_count st) (rng st).

Definition set_hp2 (h : Z) (st : BattleState) : BattleState :=
  mkState (pokemon1 st) (pokemon2 st) (current_hp1 st) h
    (turns_log st) (turn_count st) (rng st).

Definition append_action (msg : string) (td : TurnRecord) : TurnRecord :=
  mkTurn (turn td) (actions td ++ [msg]).

(** [who == pokemon1] and [who == pokemon2], where [who] refers to one of
    the two combatants: the dataclass equality, by value. *)
Definition eq_pokemon1 (who : Side) (st : BattleState) : bool :=
  match who with
  | P1 => true
  | P2 => bool_decide (pokemon2 st = pokemon1 st)
  end.

Definition eq_pokemon2 (who : Side) (st : BattleState) : bool :=
  match who with
  | P1 => bool_decide (pokemon1 st = pokemon2 st)
  | P2 => true
  end.

(** Lines 254-264: the turn order of a round. *)
Definition turn_order (st : BattleState) : Side * Side :=
  let speed1 := speed (pokemon1 st) in
  let speed2 := speed (pokemon2 st) in
  let speed1 :=
    if Py.contains PARALYSIS (status_effects (pokemon1 st))
    then speed1 / 2 else speed1 in
  let speed2 :=
    if Py.contains PARALYSIS (status_effects (pokemon2 st))
    then speed2 / 2 else speed2 in
  let first_pokemon := if bool_decide (speed1 >= speed2) then P1 else P2 in
  let second_pokemon := if eq_pokemon1 first_pokemon st then P2 else P1 in
  (first_pokemon, second_pokemon).

(** [can_move] on a combatant and the logging of its message. *)
Definition gate (who : Side) (td : TurnRecord) (st : BattleState)
    : bool * TurnRecord * BattleState :=
  let '((can, status_msg), p, r) := can_move (get_pokemon who st) (rng st) in
  let st := set_rng r (set_pokemon who p st) in
  let td := if bool_decide (status_msg = "") then td
            else append_action status_msg td in
  (can, td, st).

Definition attacking_moves (p : Pokemon) : list Move :=
  filter (fun m => move_power m > 0) (moves p).

Definition describe_attack (attacker_name : string) (move : Move)
    (damage : Z) (target_name : string) (is_critical : bool)
    (status_inflicted : option StatusEffect) : string :=
  let action :=
    attacker_name +:+ " used " +:+ move_name move +:+ " and dealt " +:+
    pretty damage +:+ " damage to " +:+ target_name in
  let action :=
    if is_critical then action +:+ " (Critical hit!)" else action in
  match status_inflicted with
  | Some status =>
      action +:+ " " +:+ target_name +:+ " is now " +:+ status_str status +:+ "!"
  | None => action
  end.

(** Lines 271-302: the action of the first combatant once it may move. *)
Definition first_attack (db : PokemonDatabase) (first_pokemon second_pokemon : Side)
    (td : TurnRecord) (st : BattleState) : Result (TurnRecord * BattleState) :=
  let attacker := get_pokemon first_pokemon st in
  match moves attacker with
  | [] => Ok (append_action
                (name attacker +:+ " has no moves and cannot attack!") td, st)
  | _ =>
      match attacking_moves attacker with
      | [] => Ok (append_action
                    (name attacker +:+
                     " has no attacking moves and struggles helplessly!") td, st)
      | candidates =>
          let '(_, r) := random.choice candidates (rng st) in
          let '(move, r) := random.choice candidates r in
          match move with
          | None => Raise IndexError
          | Some move =>
              let target :=
                if eq_pokemon1 first_pokemon st then second_pokemon else P1 in
              '((damage, is_critical, status_inflicted), defender, r) ←
                _calculate_damage db attacker (get_pokemon target st) move r;
              let st := set_rng r (set_pokemon target defender st) in
              let '(st, target_name) :=
                if eq_pokemon1 first_pokemon st
                then (set_hp2 (Z.max 0 (current_hp2 st - damage)) st,
                      name (get_pokemon second_pokemon st))
                else (set_hp1 (Z.max 0 (current_hp1 st - damage)) st,
                      name (pokemon1 st)) in
              Ok (append_action
                    (describe_attack (name attacker) move damage target_name
                       is_critical status_inflicted) td, st)
          end
      end
  end.

(** Lines 314-344: the action of the second combatant once it may move. *)
Definition second_attack (db : PokemonDatabase) (first_pokemon second_pokemon : Side)
    (td : TurnRecord) (st : BattleState) : Result (TurnRecord * BattleState) :=
  let attacker := get_pokemon second_pokemon st in
  match moves attacker with
  | [] => Ok (append_action
                (name attacker +:+ " has no moves and cannot attack!") td, st)
  | _ =>
      match attacking_moves attacker with
      | [] => Ok (append_action
                    (name attacker +:+
                     " has no attacking moves and struggles helplessly!") td, st)
      | candidates =>
          let '(move, r) := random.choice candidates (rng st) in
          match move with
          | None => Raise IndexError
          | Some move =>
              '((damage, is_critical, status_inflicted), defender, r) ←
                _calculate_damage db attacker (get_pokemon first_pokemon st) move r;
              let st := set_rng r (set_pokemon first_pokemon defender st) in
              let '(st, target_name) :=
                if eq_pokemon1 second_pokemon st
                then (set_hp2 (Z.max 0 (current_hp2 st - damage)) st,
                      name (get_pokemon first_pokemon st))
                else (set_hp1 (Z.max 0 (current_hp1 st - damage)) st,
                      if eq_pokemon1 second_pokemon st
                      then name (pokemon2 st) else name (pokemon1 st)) in
              Ok (append_action
                    (describe_attack (name attacker) move damage target_name
                       is_critical status_inflicted) td, st)
          end
      end
  end.

Definition first_turn (db : PokemonDatabase) (first_pokemon second_pokemon : Side)
    (td : TurnRecord) (st : BattleState) : Result (TurnRecord * BattleState) :=
  let '(can, td, st) := gate first_pokemon td st in
  if can then first_attack db first_pokemon second_pokemon td st
  else Ok (td, st).

Definition second_turn (db : PokemonDatabase) (first_pokemon second_pokemon : Side)
    (td : TurnRecord) (st : BattleState) : Result (TurnRecord * BattleState) :=
  let '(can, td, st) := gate second_pokemon td st in
  if can && bool_decide (current_hp1 st > 0) && bool_decide (current_hp2 st > 0)
  then second_attack db first_pokemon second_pokemon td st
  else Ok (td, st).

(** Lines 348-355: one iteration of the end-of-turn loop. *)
Definition status_phase (pkmn : Side) (td : TurnRecord) (st : BattleState)
    : TurnRecord * BattleState :=
  if (eq_pokemon1 pkmn st && bool_decide (current_hp1 st > 0))
     || (eq_pokemon2 pkmn st && bool_decide (current_hp2 st > 0))
  then
    let '(status_damage, status_msg) :=
      process_status_damage (get_pokemon pkmn st) in
    if bool_decide (status_damage > 0) then
      let st :=
        if eq_pokemon1 pkmn st
        then set_hp1 (Z.max 0 (current_hp1 st - status_damage)) st
        else set_hp2 (Z.max 0 (current_hp2 st - status_damage)) st in
      (append_action status_msg td, st)
    else (td, st)
  else (td, st).

Definition begin_round (st : BattleState) : BattleState :=
  mkState (pokemon1 st) (pokemon2 st) (current_hp1 st) (current_hp2 st)
    (turns_log st) (turn_count st + 1) (rng st).

Definition append_turn (td : TurnRecord) (st : BattleState) : BattleState :=
  mkState (pokemon1 st) (pokemon2 st) (current_hp1 st) (current_hp2 st)
    (turns_log st ++ [td]) (turn_count st) (rng st).

Definition fainted (st : BattleState) : bool :=
  bool_decide (current_hp1 st ≤ 0) || bool_decide (current_hp2 st ≤ 0).

(** The body of the [while] loop; the flag tells whether it left by
    [break]. *)
Definition round (db : PokemonDatabase) (st : BattleState)
    : Result (BattleState * bool) :=
  let st := begin_round st in
  let td := mkTurn (turn_count st) [] in
  let '(first_pokemon, second_pokemon) := turn_order st in
  '(td, st) ← first_turn db first_pokemon second_pokemon td st;
  if fainted st then Ok (append_turn td st, true)
  else
    '(td, st) ← second_turn db first_pokemon second_pokemon td st;
    let '(td, st) := status_phase P1 td st in
    let '(td, st) := status_phase P2 td st in
    let st := append_turn td st in
    Ok (st, fainted st).

Definition loop_condition (st : BattleState) : bool :=
  bool_decide (current_hp1 st > 0) && bool_decide (current_hp2 st > 0)
  && bool_decide (turn_count st < max_turns).

(** The [while] loop.  [None] means that [fuel] iterations were not
    enough to leave it. *)
Fixpoint battle_loop (fuel : nat) (db : PokemonDatabase) (st : BattleState)
    : option (Result BattleState) :=
  if loop_condition st then
    match fuel with
    | O => None
    | S fuel' =>
        match round db st with
        | Raise e => Some (Raise e)
        | Ok (st', true) => Some (Ok st')
        | Ok (st', false) => battle_loop fuel' db st'
        end
    end
  else Some (Ok st).

Definition initial_state (pokemon1 pokemon2 : Pokemon) (r : Random)
    : BattleState :=
  mkState pokemon1 pokemon2 (hp pokemon1) (hp pokemon2) [] 0 r.

(** Lines 363-374: the result built after the loop. *)
Definition battle_result (st : BattleState) : BattleResult :=
  let winner :=
    if bool_decide (current_hp1 st > 0) then Some (name (pokemon1 st))
    else if bool_decide (current_hp2 st > 0) then Some (name (pokemon2 st))
    else None in
  let battle_summary :=
    match winner with
    | Some w =>
        if bool_decide (w = "") then "Battle ended in a draw"
        else w +:+ " won in " +:+ pretty (Z.of_nat (length (turns_log st))) +:+
             " turns"
    | None => "Battle ended in a draw"
    end in
  mkBattleResult winner (turns_log st) battle_summary.

(** The state in which the loop is left. *)
Definition run_battle (fuel : nat) (db : PokemonDatabase)
    (pokemon1 pokemon2 : Pokemon) (r : Random) : option (Result BattleState) :=
  battle_loop fuel db (initial_state pokemon1 pokemon2 r).

Definition simulate_battle (fuel : nat) (db : PokemonDatabase)
    (pokemon1 pokemon2 : Pokemon) (r : Random) : option (Result BattleResult) :=
  match run_battle fuel db pokemon1 pokemon2 r with
  | Some (Ok st) => Some (Ok (battle_result st))
  | Some (Raise e) => Some (Raise e)
  | None => None
  end.

End BattleSimulator.

(** ** prepare_pokemon_for_battle *)

(** One entry of [data['moves']], as the provider returns it: [power] and
    [accuracy] are integers or [None]. *)
Record MoveData : Type := mkMoveData {
  data_move_name : string;
  data_move_type : string;
  data_move_power : option Z;
  data_move_accuracy : option Z;
  data_move_damage_class : string
}.

Record PokemonData : Type := mkPokemonData {
  identifier : string;
  stats : gmap string Z;
  data_types : list string;
  data_moves : list MoveData
}.

(** Truth value of [move['move'].get('power')]. *)
Definition truthy (x : option Z) : bool :=
  match x with
  | Some n => bool_decide (n ≠ 0)
  | None => false
  end.

(** [int(x or d)]. *)
Definition int_or (x : option Z) (d : Z) : Z :=
  if truthy x then default d x else d.

Definition calculate_hp (base_hp : Z) : Result Z :=
  t ← Py.int_truediv (base_hp * 2 * BattleSimulator.level) 100;
  t ← Py.float_add_int t BattleSimulator.level;
  t ← Py.float_add_int t 10;
  Py.float_to_int t.

Definition calculate_stat (base_stat : Z) : Result Z :=
  t ← Py.int_truediv (base_stat * 2 * BattleSimulator.level) 100;
  t ← Py.float_add_int t 5;
  Py.float_to_int t.

Definition prepare_move (move : MoveData) : Move :=
  mkMove (data_move_name move) (data_move_type move)
    (int_or (data_move_power move) 0)
    (int_or (data_move_accuracy move) 100)
    (data_move_damage_class move).

Definition prepare_moves (l : list MoveData) : list Move :=
  prepare_move <$> filter (fun move => truthy (data_move_power move)) (take 4 l).

Definition prepare_pokemon_for_battle (data : PokemonData) : Result Pokemon :=
  let base_hp := default 35 (stats data !! "hp") in
  let base_attack := default 50 (stats data !! "attack") in
  let base_defense := default 50 (stats data !! "defense") in
  let base_sp_attack := default 50 (stats data !! "special-attack") in
  let base_sp_defense := default 50 (stats data !! "special-defense") in
  let base_speed := default 50 (stats data !! "speed") in
  scaled_hp ← calculate_hp base_hp;
  scaled_attack ← calculate_stat base_attack;
  scaled_defense ← calculate_stat base_defense;
  scaled_sp_attack ← calculate_stat base_sp_attack;
  scaled_sp_defense ← calculate_stat base_sp_defense;
  scaled_speed ← calculate_stat base_speed;
  Ok (mkPokemon (identifier data) scaled_hp scaled_hp scaled_attack
        scaled_defense scaled_sp_attack scaled_sp_defense scaled_speed
        (data_types data) (prepare_moves (data_moves data)) [] ∅).

(** ** BattleSimulationTool *)

(** The dict that [simulate_pokemon_battle] returns after a battle;
    ['detailed_turns'] is present when [detailed] is set. *)
Record BattleReport : Type := mkBattleReport {
  report_pokemon1 : string;
  report_pokemon2 : string;
  report_winner : option string;
  total_turns : Z;
  report_battle_summary : string;
  status_effects_used : bool;
  battle_mechanics : list string;
  detailed_turns : option (list TurnRecord)
}.

(** What the tool returns: the report, [{"error": msg}] for a name the
    provider does not know, or the [{"error": ...}] built by the
    [except Exception] handler from the exception caught (its message text
    is [str(e)] and is not modelled). *)
Inductive ToolResponse : Type :=
  | Report (report : BattleReport)
  | ErrorResponse (error : string)
  | SimulationFailed (e : Exn).

Definition mechanics_list : list string :=
  [ "Type effectiveness calculations";
    "Damage formulas based on stats and move power";
    "Speed-based turn order";
    "Status effects: Burn, Poison, Paralysis, Sleep, Freeze, Confusion";
    "Critical hits and STAB bonuses";
    "Level 50 stat scaling" ].

(** [get_pokemon_by_name] is the provider's lookup; [None] stands for an
    unknown name.  [None] as a result means that [fuel] was not enough for
    the battle. *)
Definition simulate_pokemon_battle (fuel : nat)
    (get_pokemon_by_name : string → option PokemonData) (db : PokemonDatabase)
    (pokemon1_name pokemon2_name : string) (detailed : bool) (r : Random)
    : option ToolResponse :=
  let pokemon1_data := get_pokemon_by_name (Py.lower pokemon1_name) in
  let pokemon2_data := get_pokemon_by_name (Py.lower pokemon2_name) in
  match pokemon1_data, pokemon2_data with
  | None, _ => Some (ErrorResponse ("Pokemon not found: " +:+ pokemon1_name))
  | Some _, None => Some (ErrorResponse ("Pokemon not found: " +:+ pokemon2_name))
  | Some pokemon1_data, Some pokemon2_data =>
      match prepare_pokemon_for_battle pokemon1_data with
      | Raise e => Some (SimulationFailed e)
      | Ok pokemon1 =>
          match prepare_pokemon_for_battle pokemon2_data with
          | Raise e => Some (SimulationFailed e)
          | Ok pokemon2 =>
              match BattleSimulator.simulate_battle fuel db pokemon1 pokemon2 r with
              | None => None
              | Some (Raise e) => Some (SimulationFailed e)
              | Some (Ok battle_result) =>
                  Some (Report
                    (mkBattleReport (name pokemon1) (name pokemon2)
                       (winner battle_result)
                       (Z.of_nat (length (turns battle_result)))
                       (battle_summary battle_result) true mechanics_list
                       (if detailed then Some (turns battle_result) else None)))
              end
          end
      end
  end.

(** * Vocabulary of the properties *)

(** How often a condition is listed. *)
Definition occurrences (s : StatusEffect) (l : list StatusEffect) : Z :=
  Z.of_nat (length (filter (fun x => x = s) l)).

(** The combatant with maximal HP [m] holding exactly the conditions [l]. *)
Definition afflicted (m : Z) (l : list StatusEffect) : Pokemon :=
  mkPokemon "mon" m m 10 10 10 10 10 [] [] l ∅.

(** The speed that decides the turn order, in the words of the
    specification: the speed, halved by integer division while the
    combatant holds Paralysis. *)
Definition effective_speed (p : Pokemon) : Z :=
  if bool_decide (PARALYSIS ∈ status_effects p) then speed p / 2 else speed p.

(** The other combatant. *)
Definition opponent (who : Side) : Side :=
  match who with
  | P1 => P2
  | P2 => P1
  end.

(** The combatant that the specification lets act first: the one with the
    higher effective speed, [pokemon1] on a tie. *)
Definition faster (st : BattleState) : Side :=
  if bool_decide (effective_speed (pokemon1 st) < effective_speed (pokemon2 st))
  then P2 else P1.

(** The HP counter of a combatant. *)
Definition current_hp (who : Side) (st : BattleState) : Z :=
  match who with
  | P1 => current_hp1 st
  | P2 => current_hp2 st
  end.

(** Sample moves, combatants, providers and generators. *)
Definition tackle : Move := mkMove "tackle" "normal" 40 100 "physical".

Definition ember : Move := mkMove "ember" "fire" 40 100 "special".

Definition sample_pokemon (n : string) (h s : Z) (ms : list Move)
    (ts : list string) : Pokemon :=
  mkPokemon n h h 60 50 55 45 s ts ms [] ∅.

(** Every pair of types is neutral. *)
Definition neutral_db : PokemonDatabase := mkDatabase (fun _ _ => None).

(** Every attack is without effect: the multiplier is 0.0 throughout. *)
Definition immune_db : PokemonDatabase := mkDatabase (fun _ _ => Some 0%float).

(** A generator whose every [random()] is 0.5. *)
Definition even_random : Random :=
  mkRandom (fun _ => 4503599627370496) 0.

(** A combatant without moves: it can never attack. *)
Definition idle_pokemon (n : string) (h s : Z) : Pokemon :=
  sample_pokemon n h s [] ["normal"].

(** A move without power and a combatant that knows nothing else. *)
Definition growl : Move := mkMove "growl" "normal" 0 100 "status".

Definition harmless_pokemon (n : string) (h s : Z) : Pokemon :=
  sample_pokemon n h s [growl] ["normal"].

(** What the first round of a battle logs: the actions of its record. *)
Definition first_round_actions (db : PokemonDatabase) (p1 p2 : Pokemon)
    (r : Random) : option (list string) :=
  match BattleSimulator.round db (BattleSimulator.initial_state p1 p2 r) with
  | Ok (st, _) => actions <$> last (turns_log st)
  | Raise _ => None
  end.

(** Provider data whose first four moves have no power and whose fifth is
    damaging. *)
Definition status_move_data (n : string) : MoveData :=
  mkMoveData n "normal" None None "status".

Definition late_attacker_data : PokemonData :=
  mkPokemonData "smeargle" ∅ ["normal"]
    [ status_move_data "growl"; status_move_data "leer";
      mkMoveData "splash" "normal" (Some 0) None "status";
      status_move_data "harden";
      mkMoveData "hyper-beam" "normal" (Some 150) (Some 90) "special" ].

(** Provider data with two damaging moves among the first four, one of them
    without an accuracy, and a damaging fifth move. *)
Definition mixed_moves_data : PokemonData :=
  mkPokemonData "raichu" ∅ ["electric"]
    [ status_move_data "growl";
      mkMoveData "thunder-shock" "electric" (Some 40) (Some 100) "special";
      mkMoveData "splash" "normal" (Some 0) None "status";
      mkMoveData "quick-attack" "normal" (Some 40) None "physical";
      mkMoveData "hyper-beam" "normal" (Some 150) (Some 90) "special" ].

(** What the log says of a combatant that may move but has nothing to
    attack with. *)
Definition forfeit_message (p : Pokemon) : string :=
  match moves p with
  | [] => name p +:+ " has no moves and cannot attack!"
  | _ => name p +:+ " has no attacking moves and struggles helplessly!"
  end.

(** [p'] is [p] up to its status conditions and their counters. *)
Definition same_body (p p' : Pokemon) : Prop :=
  p' = set_status p (status_effects p') (status_turns p').

(** The major conditions a combatant holds, in the order of its list. *)
Definition majors (l : list StatusEffect) : list StatusEffect :=
  filter (fun s => s ∈ StatusEffectManager.major_statuses) l.

(** The invariant of the data model: at most one major condition. *)
Definition status_ok (p : Pokemon) : Prop :=
  (length (majors (status_effects p)) ≤ 1)%nat.

(** The phases inside a round: a [can_move] check, an attack that did not
    raise, or one iteration of the end-of-turn loop. *)
Inductive phase_step (db : PokemonDatabase) : BattleState → BattleState → Prop :=
  | step_gate who td st :
      phase_step db st (BattleSimulator.gate who td st).2
  | step_first_attack first_pokemon second_pokemon td st td' st' :
      BattleSimulator.first_attack db first_pokemon second_pokemon td st
      = Ok (td', st') →
      phase_step db st st'
  | step_second_attack first_pokemon second_pokemon td st td' st' :
      BattleSimulator.second_attack db first_pokemon second_pokemon td st
      = Ok (td', st') →
      phase_step db st st'
  | step_status pkmn td st :
      phase_step db st (BattleSimulator.status_phase pkmn td st).2.

(** The points of a battle: a state follows another by the start of a
    round, by a phase of the round, or by the logging of the round. *)
Inductive battle_step (db : PokemonDatabase) : BattleState → BattleState → Prop :=
  | step_begin st :
      battle_step db st (BattleSimulator.begin_round st)
  | step_phase st st' :
      phase_step db st st' → battle_step db st st'
  | step_append td st :
      battle_step db st (BattleSimulator.append_turn td st).

(** Two states with the same log and the same round counter. *)
Definition same_log (st st' : BattleState) : Prop :=
  turns_log st' = turns_log st ∧ turn_count st' = turn_count st.

(** The states a battle passes through. *)
Definition reachable (db : PokemonDatabase) (st st' : BattleState) : Prop :=
  rtc (battle_step db) st st'.

(** [st'] is [st] after an attack of [attacker] on [target] was resolved
    and its damage taken from one of the two HP counters. *)
Definition attack_applied (db : PokemonDatabase) (attacker target : Side)
    (st st' : BattleState) : Prop :=
  ∃ move r0 damage is_critical status_inflicted defender r,
    BattleSimulator._calculate_damage db
      (BattleSimulator.get_pokemon attacker st)
      (BattleSimulator.get_pokemon target st) move r0
    = Ok ((damage, is_critical, status_inflicted), defender, r)
    ∧ let st1 := BattleSimulator.set_rng r
                   (BattleSimulator.set_pokemon target defender st) in
      st' = BattleSimulator.set_hp1 (Z.max 0 (current_hp1 st1 - damage)) st1
      ∨ st' = BattleSimulator.set_hp2 (Z.max 0 (current_hp2 st1 - damage)) st1.

(** Two combatants that hurt each other. *)
Definition normal_attacker : Pokemon :=
  sample_pokemon "a" 120 50 [tackle] ["normal"].

Definition fire_attacker : Pokemon :=
  sample_pokemon "b" 100 60 [ember] ["fire"].

(** Both combatants satisfy the invariant. *)
Definition statuses_ok (st : BattleState) : Prop :=
  status_ok (pokemon1 st) ∧ status_ok (pokemon2 st).

(** Moves that inflict a condition, a combatant that knows them, and a
    generator whose draws alternate between small and middle values. *)
Definition nuzzle : Move := mkMove "nuzzle" "electric" 20 100 "physical".

Definition spore : Move := mkMove "spore" "grass" 10 100 "special".

Definition psybeam : Move := mkMove "psybeam" "psychic" 15 100 "special".

Definition inflictor : Pokemon :=
  sample_pokemon "a" 120 50 [nuzzle; spore; psybeam] ["electric"].

Definition alternating_random : Random :=
  mkRandom
    (fun n => 4503599627370496 * Z.of_nat (n mod 2) + 3 * Z.of_nat n) 0.

(** The records of a log are numbered from 1, in order. *)
Definition numbered (l : list TurnRecord) : Prop :=
  ∀ i td, l !! i = Some td → turn td = Z.of_nat i + 1.

(** The counter a condition may carry: 1 to 3 for sleep, 1 to 5 for
    confusion, none for the other conditions. *)
Definition counter_in_range (s : StatusEffect) (n : Z) : Prop :=
  (s = SLEEP ∧ 1 ≤ n ≤ 3) ∨ (s = CONFUSION ∧ 1 ≤ n ≤ 5).

(** The list of conditions and the dict of counters agree: no condition is
    listed twice, every counter belongs to a listed condition and is in
    range, and a listed sleep or confusion has its counter. *)
Definition counters_in_sync (p : Pokemon) : Prop :=
  NoDup (status_effects p)
  ∧ (∀ s n, status_turns p !! s = Some n →
            s ∈ status_effects p ∧ counter_in_range s n)
  ∧ (∀ s, s ∈ [SLEEP; CONFUSION] → s ∈ status_effects p →
          is_Some (status_turns p !! s)).

(** [can_move] called [k] times in a row, with its results in order. *)
Fixpoint can_move_repeatedly (k : nat) (p : Pokemon) (r : Random)
    : list (bool * string) * Pokemon * Random :=
  match k with
  | O => ([], p, r)
  | S k' =>
      let '(result, p', r') := StatusEffectManager.can_move p r in
      let '(results, p'', r'') := can_move_repeatedly k' p' r' in
      (result :: results, p'', r'')
  end.

#[global] Instance Exn_eq_dec : EqDecision Exn.
Proof. solve_decision. Defined.

#[global] Instance Result_eq_dec {A : Type} `{EqDecision A} :
  EqDecision (Result A).
Proof. solve_decision. Defined.

(** Provider data of a known species: two of its base stats are missing. *)
Definition pikachu_data : PokemonData :=
  mkPokemonData "pikachu"
    {[ "hp" := 35; "attack" := 55; "defense" := 40; "speed" := 90 ]}
    ["electric"]
    [ mkMoveData "thunder-shock" "electric" (Some 40) (Some 100) "special";
      status_move_data "growl" ].

(** * Properties *)

(** ** The model at work *)

(** A battle between the two sample attackers, with every [random()] at
    0.5: no critical hit, no burn, the random factor at 0.925. *)
Example sample_battle :
  BattleSimulator.simulate_battle 100 neutral_db normal_attacker fire_attacker
    even_random
  = Some (Ok (mkBattleResult (Some "b")
       [ mkTurn 1 [ "b used ember and dealt 32 damage to a";
                    "a used tackle and dealt 32 damage to b" ];
         mkTurn 2 [ "b used ember and dealt 32 damage to a";
                    "a used tackle and dealt 32 damage to b" ];
         mkTurn 3 [ "b used ember and dealt 32 damage to a";
                    "a used tackle and dealt 32 damage to b" ];
         mkTurn 4 [ "b used ember and dealt 32 damage to a" ] ]
       "b won in 4 turns")).
Proof. vm_compute. reflexivity. Qed.

(** Two combatants that are equal by value: [second_pokemon == pokemon1]
    holds on line 331, and the second attack of the round is taken from the
    attacker's own counter. *)
Example mirror_match_round :
  (fun outcome =>
     match outcome with
     | Ok (st, _) => Some (current_hp1 st, current_hp2 st, turns_log st)
     | Raise _ => None
     end)
    (BattleSimulator.round neutral_db
       (BattleSimulator.initial_state normal_attacker normal_attacker even_random))
  = Some (120, 56,
          [ mkTurn 1 [ "a used tackle and dealt 32 damage to a";
                       "a used tackle and dealt 32 damage to a" ] ]).
Proof. vm_compute. reflexivity. Qed.

(** ** End-of-round status damage *)

Lemma status_damage_loop_sum p l damage messages :
  (StatusEffectManager.status_damage_loop p l damage messages).1
  = damage + occurrences BURN l * Z.max 1 (max_hp p / 16)
           + occurrences POISON l * Z.max 1 (max_hp p / 8).
Proof.
  revert damage messages.
  induction l as [|s l IH]; intros damage messages.
  - unfold occurrences. simpl. lia.
  - unfold occurrences in *.
    destruct s; simpl; rewrite ?IH; rewrite ?filter_cons;
      repeat case_decide; try congruence; simpl length; lia.
Qed.

Lemma occurrences_NoDup s l :
  NoDup l → occurrences s l = if bool_decide (s ∈ l) then 1 else 0.
Proof.
  unfold occurrences.
  induction 1 as [|x l Hx Hl IH].
  - reflexivity.
  - rewrite filter_cons. destruct (decide (x = s)) as [->|Hs].
    + rewrite bool_decide_eq_true_2 by left.
      rewrite bool_decide_eq_false_2 in IH by done.
      simpl length. lia.
    + rewrite IH. destruct (decide (s ∈ l)) as [Hin|Hin].
      * rewrite !bool_decide_eq_true_2; [done | by right | done].
      * rewrite !bool_decide_eq_false_2; [done | | done].
        intros [->|?]%elem_of_cons; done.
Qed.

(** C7: the end-of-round damage of [process_status_damage] is
    [max(1, max_hp // 16)] for a burn plus [max(1, max_hp // 8)] for poison,
    whichever the combatant holds (its conditions listed once each); for
    maximal HP 1, 15, 16, 17 and 200 a burn costs 1, 1, 1, 1, 12 and poison
    1, 1, 2, 2, 25. *)
Theorem process_status_damage_formula (p : Pokemon) :
  NoDup (status_effects p) →
  (StatusEffectManager.process_status_damage p).1
  = (if bool_decide (BURN ∈ status_effects p)
     then Z.max 1 (max_hp p / 16) else 0)
    + (if bool_decide (POISON ∈ status_effects p)
       then Z.max 1 (max_hp p / 8) else 0)
  ∧ (fun m => (StatusEffectManager.process_status_damage (afflicted m [BURN])).1)
      <$> [1; 15; 16; 17; 200] = [1; 1; 1; 1; 12]
  ∧ (fun m => (StatusEffectManager.process_status_damage (afflicted m [POISON])).1)
      <$> [1; 15; 16; 17; 200] = [1; 1; 2; 2; 25].
Proof.
  intros Hnd. split; [|split; reflexivity].
  unfold StatusEffectManager.process_status_damage.
  pose proof (status_damage_loop_sum p (status_effects p) 0 []) as Hsum.
  destruct (StatusEffectManager.status_damage_loop p (status_effects p) 0 [])
    as [damage messages].
  simpl in *. rewrite Hsum, !occurrences_NoDup by done.
  repeat case_bool_decide; lia.
Qed.

Lemma process_status_damage_formula_witness :
  (StatusEffectManager.process_status_damage (afflicted 200 [BURN; CONFUSION])).1
  = 12.
Proof.
  destruct (process_status_damage_formula (afflicted 200 [BURN; CONFUSION]))
    as [H _].
  - apply (bool_decide_unpack (NoDup [BURN; CONFUSION])). vm_compute. exact I.
  - rewrite H. reflexivity.
Defined.

(** ** Damage *)

Lemma bind_Ok {A B} (m : Result A) (f : A → Result B) (b : B) :
  (m ≫= f) = Ok b → ∃ a, m = Ok a ∧ f a = Ok b.
Proof. destruct m as [a|e]; simpl; [eauto | discriminate]. Qed.

(** C6: when [_calculate_damage] resolves a move of positive power, the
    damage it returns is at least 1, whatever the type-effectiveness
    multiplier (0.0 included): the floor is taken last. *)
Theorem calculate_damage_at_least_one (db : PokemonDatabase)
    (attacker defender : Pokemon) (move : Move) (r : Random)
    (damage : Z) (is_critical : bool) (status_inflicted : option StatusEffect)
    (defender' : Pokemon) (r' : Random) :
  move_power move > 0 →
  BattleSimulator._calculate_damage db attacker defender move r
  = Ok ((damage, is_critical, status_inflicted), defender', r') →
  1 ≤ damage.
Proof.
  intros Hpower. unfold BattleSimulator._calculate_damage.
  rewrite bool_decide_eq_false_2 by lia.
  rewrite bool_decide_eq_false_2 by lia. simpl orb. cbv iota.
  intros (base & _ & H)%bind_Ok.
  destruct (random.random r) as [x r1].
  apply bind_Ok in H as (crit & _ & H).
  destruct (random.uniform _ _ r1) as [factor r2].
  apply bind_Ok in H as (d & _ & H).
  destruct (BattleSimulator._get_move_status_chance _) as [status_effect chance].
  destruct status_effect as [status|].
  - destruct (random.random r2) as [y r3].
    destruct (PrimFloat.ltb y chance).
    + destruct (StatusEffectManager.apply_status_effect _ _ _) as [[msg q] r4].
      injection H as <- _ _ _ _. lia.
    + injection H as <- _ _ _ _. lia.
  - injection H as <- _ _ _ _. lia.
Qed.

(** With the multiplier forced to 0.0 the damage is exactly the floor. *)
Lemma calculate_damage_at_least_one_witness :
  BattleSimulator._calculate_damage immune_db
    (sample_pokemon "a" 120 50 [tackle] ["normal"])
    (sample_pokemon "b" 100 60 [ember] ["fire"]) tackle even_random
  = Ok ((1, false, None), sample_pokemon "b" 100 60 [ember] ["fire"],
        mkRandom (stream even_random) 2)
  ∧ 1 ≤ 1.
Proof.
  split; [vm_compute; reflexivity |].
  apply (calculate_damage_at_least_one immune_db
           (sample_pokemon "a" 120 50 [tackle] ["normal"])
           (sample_pokemon "b" 100 60 [ember] ["fire"]) tackle even_random
           1 false None (sample_pokemon "b" 100 60 [ember] ["fire"])
           (mkRandom (stream even_random) 2)).
  - reflexivity.
  - vm_compute. reflexivity.
Defined.

(** ** Turn order *)

Lemma turn_order_faster (st : BattleState) :
  BattleSimulator.turn_order st = (faster st, opponent (faster st)).
Proof.
  unfold BattleSimulator.turn_order, faster, effective_speed, Py.contains.
  set (speed1 := if bool_decide (PARALYSIS ∈ status_effects (pokemon1 st))
                 then speed (pokemon1 st) / 2 else speed (pokemon1 st)).
  set (speed2 := if bool_decide (PARALYSIS ∈ status_effects (pokemon2 st))
                 then speed (pokemon2 st) / 2 else speed (pokemon2 st)).
  destruct (decide (speed1 >= speed2)) as [Hge|Hlt].
  - rewrite (bool_decide_eq_true_2 _ Hge), bool_decide_eq_false_2 by lia.
    reflexivity.
  - rewrite (bool_decide_eq_false_2 _ Hlt), bool_decide_eq_true_2 by lia.
    simpl. rewrite bool_decide_eq_false_2; [reflexivity|].
    intros Heq. subst speed1 speed2. rewrite Heq in Hlt. lia.
Qed.

(** C8: in every round the combatant with the higher effective speed (its
    speed, halved by integer division while it holds Paralysis) acts first,
    and [pokemon1] on a tie.  Whatever [round] returns, it has run the first
    turn (the [can_move] check and the attack) of that combatant on the
    state in which the round begins, and the turn of the other combatant
    only afterwards, on the state that the first turn left, unless somebody
    fainted in between; an exception of [round] is one of these two turns'.
    Three first rounds show it in the log: the second-listed combatant is
    faster and acts first; paralysed, it is the slower one and acts second;
    at equal speed [pokemon1] acts first. *)
Theorem turn_order_by_effective_speed (db : PokemonDatabase) (st : BattleState) :
  let first_pokemon := faster st in
  let second_pokemon := opponent first_pokemon in
  let st0 := BattleSimulator.begin_round st in
  let td0 := mkTurn (turn_count st + 1) [] in
  match BattleSimulator.round db st with
  | Ok (st', left_by_break) =>
      ∃ td1 st1,
        BattleSimulator.first_turn db first_pokemon second_pokemon td0 st0
        = Ok (td1, st1)
        ∧ if BattleSimulator.fainted st1
          then st' = BattleSimulator.append_turn td1 st1 ∧ left_by_break = true
          else
            ∃ td2 st2,
              BattleSimulator.second_turn db first_pokemon second_pokemon td1 st1
              = Ok (td2, st2)
              ∧ let '(td3, st3) := BattleSimulator.status_phase P1 td2 st2 in
                let '(td4, st4) := BattleSimulator.status_phase P2 td3 st3 in
                st' = BattleSimulator.append_turn td4 st4
                ∧ left_by_break = BattleSimulator.fainted st'
  | Raise e =>
      BattleSimulator.first_turn db first_pokemon second_pokemon td0 st0
      = Raise e
      ∨ ∃ td1 st1,
          BattleSimulator.first_turn db first_pokemon second_pokemon td0 st0
          = Ok (td1, st1)
          ∧ BattleSimulator.fainted st1 = false
          ∧ BattleSimulator.second_turn db first_pokemon second_pokemon td1 st1
            = Raise e
  end
  ∧ first_round_actions neutral_db normal_attacker fire_attacker even_random
    = Some [ "b used ember and dealt 32 damage to a";
             "a used tackle and dealt 32 damage to b" ]
  ∧ first_round_actions neutral_db normal_attacker
      (set_status fire_attacker [PARALYSIS] ∅) even_random
    = Some [ "a used tackle and dealt 32 damage to b";
             "b used ember and dealt 32 damage to a" ]
  ∧ first_round_actions neutral_db normal_attacker
      (sample_pokemon "b" 100 50 [ember] ["fire"]) even_random
    = Some [ "a used tackle and dealt 32 damage to b";
             "b used ember and dealt 32 damage to a" ].
Proof.
  cbv zeta. split; [|repeat split; vm_compute; reflexivity].
  unfold BattleSimulator.round.
  rewrite turn_order_faster.
  change (faster (BattleSimulator.begin_round st)) with (faster st).
  change (turn_count (BattleSimulator.begin_round st)) with (turn_count st + 1).
  unfold mbind, Result_bind.
  destruct (BattleSimulator.first_turn db (faster st) (opponent (faster st)) _ _)
    as [[td1 st1]|e]; [|left; reflexivity].
  destruct (BattleSimulator.fainted st1) eqn:Hfainted.
  { exists td1, st1. by rewrite Hfainted. }
  destruct (BattleSimulator.second_turn db (faster st) (opponent (faster st)) td1 st1)
    as [[td2 st2]|e] eqn:Hsecond; [|right; by exists td1, st1].
  destruct (BattleSimulator.status_phase P1 td2 st2) as [td3 st3] eqn:Hstatus1.
  destruct (BattleSimulator.status_phase P2 td3 st3) as [td4 st4] eqn:Hstatus2.
  exists td1, st1. rewrite Hfainted. split; [done|].
  exists td2, st2. split; [done|].
  by rewrite Hstatus1, Hstatus2.
Qed.

(** ** Preparation of the move list *)

Lemma prepare_pokemon_moves data p :
  prepare_pokemon_for_battle data = Ok p →
  moves p = prepare_moves (data_moves data).
Proof.
  unfold prepare_pokemon_for_battle. intros H.
  repeat (apply bind_Ok in H as (? & _ & H)).
  injection H as <-. reflexivity.
Qed.

Lemma prepare_move_kept (move : MoveData) (power : Z) :
  data_move_power move = Some power → power ≠ 0 →
  prepare_move move
  = mkMove (data_move_name move) (data_move_type move) power
      (match data_move_accuracy move with
       | Some accuracy => if bool_decide (accuracy = 0) then 100 else accuracy
       | None => 100
       end)
      (data_move_damage_class move).
Proof.
  intros Hpower Hnonzero. unfold prepare_move, int_or. rewrite Hpower. simpl.
  rewrite (bool_decide_eq_true_2 _ Hnonzero).
  destruct (data_move_accuracy move) as [accuracy|]; simpl; [|reflexivity].
  by repeat case_bool_decide.
Qed.

Lemma truthy_nonzero (x : option Z) :
  truthy x = true ↔ ∃ n, x = Some n ∧ n ≠ 0.
Proof.
  destruct x as [n|]; simpl.
  - rewrite bool_decide_eq_true. split; [eauto | by intros (? & [= <-] & ?)].
  - split; [done | by intros (? & ? & _)].
Qed.

(** C10: [prepare_pokemon_for_battle] cuts the supplied move list to its
    first four entries and only then drops the moves without power.  The
    prepared list has at most four moves, each of nonzero power; its moves
    are exactly the entries among the first four supplied whose power is a
    number other than 0, each with that power, its name, type and damage
    class, and its accuracy or 100; they come in the supplied order; and the
    list is empty when none of the first four supplied moves has power,
    whatever comes after them. *)
Theorem prepare_truncates_before_filtering (data : PokemonData) (p : Pokemon) :
  prepare_pokemon_for_battle data = Ok p →
  (length (moves p) ≤ 4)%nat
  ∧ Forall (fun m => move_power m ≠ 0) (moves p)
  ∧ (∀ m, m ∈ moves p ↔
          ∃ move power,
            move ∈ take 4 (data_moves data)
            ∧ data_move_power move = Some power
            ∧ power ≠ 0
            ∧ m = mkMove (data_move_name move) (data_move_type move) power
                    (match data_move_accuracy move with
                     | Some accuracy =>
                         if bool_decide (accuracy = 0) then 100 else accuracy
                     | None => 100
                     end)
                    (data_move_damage_class move))
  ∧ sublist (move_name <$> moves p)
      (data_move_name <$> take 4 (data_moves data))
  ∧ ((∀ move, move ∈ take 4 (data_moves data) →
              data_move_power move = None ∨ data_move_power move = Some 0) →
     moves p = []).
Proof.
  intros Hp. rewrite (prepare_pokemon_moves _ _ Hp). unfold prepare_moves.
  assert (Hin : ∀ m,
    m ∈ prepare_move
          <$> filter (fun move => truthy (data_move_power move))
                (take 4 (data_moves data))
    ↔ ∃ move power,
        move ∈ take 4 (data_moves data)
        ∧ data_move_power move = Some power
        ∧ power ≠ 0
        ∧ m = mkMove (data_move_name move) (data_move_type move) power
                (match data_move_accuracy move with
                 | Some accuracy =>
                     if bool_decide (accuracy = 0) then 100 else accuracy
                 | None => 100
                 end)
                (data_move_damage_class move)).
  { intros m. rewrite list_elem_of_fmap. split.
    - intros (move & -> & [Ht Hmove]%list_elem_of_filter).
      apply Is_true_true, truthy_nonzero in Ht as (power & Hpower & Hnonzero).
      exists move, power. by rewrite (prepare_move_kept _ _ Hpower Hnonzero).
    - intros (move & power & Hmove & Hpower & Hnonzero & ->).
      exists move. split; [by rewrite (prepare_move_kept _ _ Hpower Hnonzero)|].
      apply list_elem_of_filter. split; [|done].
      apply Is_true_true, truthy_nonzero. eauto. }
  split; [|split; [|split; [exact Hin|split]]].
  - rewrite length_fmap.
    etrans; [apply length_filter|]. rewrite length_take. lia.
  - apply Forall_forall. intros m (move & power & _ & _ & Hnonzero & ->)%Hin.
    exact Hnonzero.
  - rewrite <- list_fmap_compose.
    change (move_name ∘ prepare_move) with data_move_name.
    apply fmap_sublist, sublist_filter.
  - intros Hnone. apply elem_of_nil_inv.
    intros m (move & power & Hmove & Hpower & Hnonzero & _)%Hin.
    destruct (Hnone move Hmove) as [H|H]; rewrite H in Hpower; congruence.
Qed.

(** Of five supplied moves the two damaging ones among the first four are
    kept, the damaging fifth is not; and a fifth damaging move does not help
    when the first four have no power. *)
Lemma prepare_truncates_before_filtering_witness :
  (∃ p, prepare_pokemon_for_battle mixed_moves_data = Ok p
        ∧ mkMove "thunder-shock" "electric" 40 100 "special" ∈ moves p
        ∧ mkMove "quick-attack" "normal" 40 100 "physical" ∈ moves p
        ∧ (∀ m, m ∈ moves p → move_name m ≠ "hyper-beam")
        ∧ (length (moves p) ≤ 4)%nat)
  ∧ ∃ p, prepare_pokemon_for_battle late_attacker_data = Ok p
         ∧ hp p = 95 ∧ moves p = [].
Proof.
  split.
  - destruct (prepare_pokemon_for_battle mixed_moves_data) as [p|e] eqn:Hp;
      [|vm_compute in Hp; discriminate].
    destruct (prepare_truncates_before_filtering mixed_moves_data p Hp)
      as (Hlen & _ & Hin & _ & _).
    exists p. split; [reflexivity|]. split; [|split; [|split; [|exact Hlen]]].
    + apply Hin.
      exists (mkMoveData "thunder-shock" "electric" (Some 40) (Some 100) "special"), 40.
      split; [simpl; rewrite !elem_of_cons; auto|]. done.
    + apply Hin.
      exists (mkMoveData "quick-attack" "normal" (Some 40) None "physical"), 40.
      split; [simpl; rewrite !elem_of_cons; auto|]. done.
    + intros m (move & power & Hmove & Hpower & _ & ->)%Hin. simpl.
      simpl in Hmove. rewrite !elem_of_cons, elem_of_nil in Hmove.
      destruct Hmove as [->|[->|[->|[->|[]]]]]; simpl in *; congruence.
  - destruct (prepare_pokemon_for_battle late_attacker_data) as [p|e] eqn:Hp;
      [|vm_compute in Hp; discriminate].
    destruct (prepare_truncates_before_filtering late_attacker_data p Hp)
      as (_ & _ & _ & _ & Hnone).
    exists p. split; [reflexivity|]. split.
    + vm_compute in Hp. by injection Hp as <-.
    + apply Hnone. intros move Hmove.
      simpl in Hmove. rewrite !elem_of_cons, elem_of_nil in Hmove.
      destruct Hmove as [->|[->|[->|[->|[]]]]]; simpl; auto.
Defined.

(** ** Sleep *)

(** C2: a combatant asleep with a counter of exactly 2 is blocked by
    [can_move] in one round only: the second call already wakes it up and
    lets it act, and the third finds it awake.  The wake-up message comes
    once, in the second round. *)
Theorem sleep_counter_two_blocks_one_round (p : Pokemon) (r : Random) :
  let asleep := set_status p [SLEEP] {[SLEEP := 2]} in
  let '(first_call, p1, r1) := StatusEffectManager.can_move asleep r in
  let '(second_call, p2, r2) := StatusEffectManager.can_move p1 r1 in
  let '(third_call, p3, r3) := StatusEffectManager.can_move p2 r2 in
  first_call = (false, name p +:+ " is fast asleep!")
  ∧ second_call = (true, name p +:+ " woke up!")
  ∧ third_call = (true, "")
  ∧ status_effects p1 = [SLEEP]
  ∧ status_effects p2 = []
  ∧ r3 = r.
Proof. cbv zeta. vm_compute. repeat split; reflexivity. Qed.

(** ** The result of a battle *)

Lemma battle_result_draw_iff (st : BattleState) :
  winner (BattleSimulator.battle_result st) = None
  ↔ current_hp1 st ≤ 0 ∧ current_hp2 st ≤ 0.
Proof.
  unfold BattleSimulator.battle_result. simpl.
  repeat case_bool_decide; split; intros; try discriminate; try lia; done.
Qed.

(** C1: two combatants without moves reach the cap of 100 rounds at full HP,
    and [simulate_battle] then names [pokemon1] the winner and says that it
    won in 100 turns; the result is a draw only when both are at 0 HP. *)
Theorem turn_cap_names_pokemon1_winner :
  (∃ st,
     BattleSimulator.run_battle 100 neutral_db
       (idle_pokemon "a" 120 50) (idle_pokemon "b" 100 60) even_random
     = Some (Ok st)
     ∧ turn_count st = 100 ∧ current_hp1 st = 120 ∧ current_hp2 st = 100
     ∧ length (turns_log st) = 100%nat
     ∧ BattleSimulator.simulate_battle 100 neutral_db
         (idle_pokemon "a" 120 50) (idle_pokemon "b" 100 60) even_random
       = Some (Ok (BattleSimulator.battle_result st))
     ∧ winner (BattleSimulator.battle_result st) = Some "a"
     ∧ battle_summary (BattleSimulator.battle_result st) = "a won in 100 turns")
  ∧ (∀ st, current_hp1 st > 0 →
           winner (BattleSimulator.battle_result st) = Some (name (pokemon1 st))).
Proof.
  split.
  - eexists. split; [vm_compute; reflexivity|].
    repeat split; vm_compute; reflexivity.
  - intros st H. unfold BattleSimulator.battle_result. simpl.
    by rewrite bool_decide_eq_true_2.
Qed.

(** ** What [can_move] may change *)

Lemma same_body_refl p : same_body p p.
Proof. unfold same_body. by destruct p. Qed.

Lemma same_body_set_status p effects turns :
  same_body p (set_status p effects turns).
Proof. reflexivity. Qed.

Lemma same_body_trans p p' p'' :
  same_body p p' → same_body p' p'' → same_body p p''.
Proof. unfold same_body. intros -> ->. reflexivity. Qed.

Lemma same_body_moves p p' : same_body p p' → moves p' = moves p.
Proof. intros ->. reflexivity. Qed.

Lemma same_body_name p p' : same_body p p' → name p' = name p.
Proof. intros ->. reflexivity. Qed.

Lemma remove_sublist (x : StatusEffect) l : sublist (Py.remove x l) l.
Proof.
  induction l as [|y l IH]; simpl; [constructor|].
  case_decide; [by apply sublist_cons | by apply sublist_skip].
Qed.

Lemma can_move_loop_weakens l p messages r :
  let p' := (StatusEffectManager.can_move_loop l p messages r).1.2 in
  same_body p p' ∧ sublist (status_effects p') (status_effects p).
Proof.
  revert p messages r.
  induction l as [|s l IH]; intros p messages r; simpl.
  { split; [apply same_body_refl | done]. }
  destruct s; simpl.
  - apply IH.
  - apply IH.
  - destruct (random.random r) as [x r'].
    destruct (PrimFloat.ltb x 0.25); simpl; [|apply IH].
    split; [apply same_body_refl | done].
  - repeat case_bool_decide; simpl; try apply IH.
    + split; [apply same_body_set_status | apply remove_sublist].
    + split; [apply same_body_set_status | done].
  - destruct (random.random r) as [x r'].
    destruct (PrimFloat.ltb x 0.2); simpl.
    + split; [apply same_body_set_status | apply remove_sublist].
    + split; [apply same_body_refl | done].
  - repeat case_bool_decide; simpl; try apply IH.
    + edestruct IH as [Hb Hs]. split.
      * eapply same_body_trans; [|exact Hb]. apply same_body_set_status.
      * etrans; [exact Hs|]. apply remove_sublist.
    + destruct (random.random r) as [x r'].
      destruct (PrimFloat.ltb x 0.5); simpl.
      * split; [apply same_body_set_status | done].
      * edestruct IH as [Hb Hs]. split.
        -- eapply same_body_trans; [|exact Hb]. apply same_body_set_status.
        -- exact Hs.
Qed.

Lemma gate_unfold who td st :
  ∃ can td' p r,
    BattleSimulator.gate who td st
    = (can, td', BattleSimulator.set_rng r (BattleSimulator.set_pokemon who p st))
    ∧ same_body (BattleSimulator.get_pokemon who st) p
    ∧ sublist (status_effects p)
        (status_effects (BattleSimulator.get_pokemon who st)).
Proof.
  unfold BattleSimulator.gate, StatusEffectManager.can_move.
  pose proof (can_move_loop_weakens
                (status_effects (BattleSimulator.get_pokemon who st))
                (BattleSimulator.get_pokemon who st) [] (rng st)) as H.
  destruct (StatusEffectManager.can_move_loop _ _ _ _) as [[[can msg] p] r].
  simpl in H. eauto 10.
Qed.

Lemma get_set_pokemon who p r st :
  BattleSimulator.get_pokemon who
    (BattleSimulator.set_rng r (BattleSimulator.set_pokemon who p st)) = p.
Proof. by destruct who. Qed.

(** ** A combatant without a usable move *)

Lemma first_attack_forfeit db who other td st :
  BattleSimulator.attacking_moves (BattleSimulator.get_pokemon who st) = [] →
  BattleSimulator.first_attack db who other td st
  = Ok (BattleSimulator.append_action
          (forfeit_message (BattleSimulator.get_pokemon who st)) td, st).
Proof.
  intros H. unfold BattleSimulator.first_attack, forfeit_message.
  destruct (moves _); [reflexivity|]. by rewrite H.
Qed.

Lemma second_attack_forfeit db who other td st :
  BattleSimulator.attacking_moves (BattleSimulator.get_pokemon who st) = [] →
  BattleSimulator.second_attack db other who td st
  = Ok (BattleSimulator.append_action
          (forfeit_message (BattleSimulator.get_pokemon who st)) td, st).
Proof.
  intros H. unfold BattleSimulator.second_attack, forfeit_message.
  destruct (moves _); [reflexivity|]. by rewrite H.
Qed.

Lemma no_positive_power_no_attacking_moves (p : Pokemon) :
  Forall (fun m => move_power m ≤ 0) (moves p) →
  BattleSimulator.attacking_moves p = [].
Proof.
  unfold BattleSimulator.attacking_moves.
  induction 1 as [|m l Hm _ IH]; [reflexivity|].
  rewrite filter_cons_False by lia. exact IH.
Qed.

(** C9: a combatant none of whose moves has positive power (it may have no
    move at all) cannot attack.  When [can_move] lets it act, its turn logs
    that it has no moves and cannot attack (empty move list) or that it has
    no attacking moves and struggles helplessly (moves of power 0 only);
    neither HP counter changes, and the turn returns without an exception,
    as first and as second of the round. *)
Theorem no_usable_move_forfeits (db : PokemonDatabase) (who other : Side)
    (td : TurnRecord) (st : BattleState) :
  Forall (fun m => move_power m ≤ 0)
    (moves (BattleSimulator.get_pokemon who st)) →
  let '(can, td1, st1) := BattleSimulator.gate who td st in
  let p := BattleSimulator.get_pokemon who st in
  let msg :=
    if bool_decide (moves p = [])
    then name p +:+ " has no moves and cannot attack!"
    else name p +:+ " has no attacking moves and struggles helplessly!" in
  current_hp1 st1 = current_hp1 st
  ∧ current_hp2 st1 = current_hp2 st
  ∧ BattleSimulator.first_turn db who other td st
    = Ok (if can then BattleSimulator.append_action msg td1 else td1, st1)
  ∧ BattleSimulator.second_turn db other who td st
    = Ok (if can && bool_decide (current_hp1 st > 0)
             && bool_decide (current_hp2 st > 0)
          then BattleSimulator.append_action msg td1 else td1, st1).
Proof.
  intros Hnone%no_positive_power_no_attacking_moves.
  unfold BattleSimulator.first_turn, BattleSimulator.second_turn.
  destruct (gate_unfold who td st) as (can & td1 & p & r & -> & Hbody & _).
  assert (Hmsg : forfeit_message p
                 = if bool_decide (moves (BattleSimulator.get_pokemon who st) = [])
                   then name (BattleSimulator.get_pokemon who st)
                        +:+ " has no moves and cannot attack!"
                   else name (BattleSimulator.get_pokemon who st)
                        +:+ " has no attacking moves and struggles helplessly!").
  { unfold forfeit_message.
    rewrite (same_body_moves _ _ Hbody), (same_body_name _ _ Hbody).
    by destruct (moves (BattleSimulator.get_pokemon who st)). }
  assert (Hnone' : BattleSimulator.attacking_moves p = []).
  { unfold BattleSimulator.attacking_moves in *.
    by rewrite (same_body_moves _ _ Hbody). }
  cbv zeta. rewrite <- Hmsg.
  split; [by destruct who|]. split; [by destruct who|].
  set (st1 := BattleSimulator.set_rng r (BattleSimulator.set_pokemon who p st)).
  assert (Hget : BattleSimulator.get_pokemon who st1 = p)
    by apply get_set_pokemon.
  assert (H1 : BattleSimulator.attacking_moves
                 (BattleSimulator.get_pokemon who st1) = [])
    by (by rewrite Hget).
  split.
  - destruct can; [|reflexivity].
    by rewrite (first_attack_forfeit _ _ _ _ _ H1), Hget.
  - replace (current_hp1 st1) with (current_hp1 st) by (by destruct who).
    replace (current_hp2 st1) with (current_hp2 st) by (by destruct who).
    destruct (can && _ && _); [|reflexivity].
    by rewrite (second_attack_forfeit _ _ _ _ _ H1), Hget.
Qed.

(** A combatant that knows only a move of power 0 struggles, whichever turn
    of the round is its own; one without moves cannot attack. *)
Lemma no_usable_move_forfeits_witness :
  let st := BattleSimulator.initial_state
              (harmless_pokemon "a" 120 50) (idle_pokemon "b" 100 60)
              even_random in
  BattleSimulator.first_turn neutral_db P1 P2 (mkTurn 1 []) st
  = Ok (mkTurn 1 ["a has no attacking moves and struggles helplessly!"], st)
  ∧ BattleSimulator.second_turn neutral_db P2 P1 (mkTurn 1 []) st
    = Ok (mkTurn 1 ["a has no attacking moves and struggles helplessly!"], st)
  ∧ BattleSimulator.first_turn neutral_db P2 P1 (mkTurn 1 []) st
    = Ok (mkTurn 1 ["b has no moves and cannot attack!"], st).
Proof.
  cbv zeta.
  set (st := BattleSimulator.initial_state
               (harmless_pokemon "a" 120 50) (idle_pokemon "b" 100 60)
               even_random).
  assert (Hstruggle : Forall (fun m => move_power m ≤ 0)
                        (moves (BattleSimulator.get_pokemon P1 st)))
    by (repeat constructor; simpl; lia).
  assert (Hidle : Forall (fun m => move_power m ≤ 0)
                    (moves (BattleSimulator.get_pokemon P2 st)))
    by constructor.
  apply (no_usable_move_forfeits neutral_db P1 P2 (mkTurn 1 []) st) in Hstruggle.
  apply (no_usable_move_forfeits neutral_db P2 P1 (mkTurn 1 []) st) in Hidle.
  vm_compute in Hstruggle, Hidle.
  destruct Hstruggle as (_ & _ & Hfirst & Hsecond).
  destruct Hidle as (_ & _ & Hfirst' & _).
  vm_compute. repeat split; assumption.
Defined.

(** ** The shape of an attack *)

Lemma first_attack_inv db first_pokemon second_pokemon td st td' st' :
  BattleSimulator.first_attack db first_pokemon second_pokemon td st
  = Ok (td', st') →
  st' = st ∨ ∃ target, attack_applied db first_pokemon target st st'.
Proof.
  unfold BattleSimulator.first_attack.
  destruct (moves _); [intros [= _ <-]; by left|].
  destruct (BattleSimulator.attacking_moves _) as [|m0 ms];
    [intros [= _ <-]; by left|].
  destruct (random.choice (m0 :: ms) (rng st)) as [discarded r0].
  destruct (random.choice (m0 :: ms) r0) as [[move|] r1]; [|discriminate].
  intros H. right.
  apply bind_Ok in H
    as ([[[[damage is_critical] status_inflicted] defender] r] & Hcalc & H).
  simpl in H.
  eexists. exists move, r1, damage, is_critical, status_inflicted, defender, r.
  split; [exact Hcalc|]. cbv zeta.
  destruct (BattleSimulator.eq_pokemon1 first_pokemon
              (BattleSimulator.set_rng r _)); injection H as _ <-; auto.
Qed.

Lemma second_attack_inv db first_pokemon second_pokemon td st td' st' :
  BattleSimulator.second_attack db first_pokemon second_pokemon td st
  = Ok (td', st') →
  st' = st ∨ attack_applied db second_pokemon first_pokemon st st'.
Proof.
  unfold BattleSimulator.second_attack.
  destruct (moves _); [intros [= _ <-]; by left|].
  destruct (BattleSimulator.attacking_moves _) as [|m0 ms];
    [intros [= _ <-]; by left|].
  destruct (random.choice (m0 :: ms) (rng st)) as [[move|] r1]; [|discriminate].
  intros H. right.
  apply bind_Ok in H
    as ([[[[damage is_critical] status_inflicted] defender] r] & Hcalc & H).
  simpl in H.
  exists move, r1, damage, is_critical, status_inflicted, defender, r.
  split; [exact Hcalc|]. cbv zeta.
  destruct (BattleSimulator.eq_pokemon1 second_pokemon
              (BattleSimulator.set_rng r _)); injection H as _ <-; auto.
Qed.

(** ** The rounds of a battle *)

Lemma first_turn_phases db first_pokemon second_pokemon td st td' st' :
  BattleSimulator.first_turn db first_pokemon second_pokemon td st
  = Ok (td', st') →
  rtc (phase_step db) st st'.
Proof.
  unfold BattleSimulator.first_turn.
  pose proof (step_gate db first_pokemon td st) as Hgate.
  destruct (BattleSimulator.gate first_pokemon td st) as [[can td1] st1].
  simpl in Hgate. destruct can.
  - intros H. eapply rtc_l; [exact Hgate|].
    apply rtc_once. by eapply step_first_attack.
  - intros [= _ <-]. by apply rtc_once.
Qed.

Lemma second_turn_phases db first_pokemon second_pokemon td st td' st' :
  BattleSimulator.second_turn db first_pokemon second_pokemon td st
  = Ok (td', st') →
  rtc (phase_step db) st st'.
Proof.
  unfold BattleSimulator.second_turn.
  pose proof (step_gate db second_pokemon td st) as Hgate.
  destruct (BattleSimulator.gate second_pokemon td st) as [[can td1] st1].
  simpl in Hgate. destruct (can && _ && _).
  - intros H. eapply rtc_l; [exact Hgate|].
    apply rtc_once. by eapply step_second_attack.
  - intros [= _ <-]. by apply rtc_once.
Qed.

Lemma round_phases db st st' broke :
  BattleSimulator.round db st = Ok (st', broke) →
  ∃ mid td,
    rtc (phase_step db) (BattleSimulator.begin_round st) mid
    ∧ st' = BattleSimulator.append_turn td mid
    ∧ broke = BattleSimulator.fainted st'.
Proof.
  unfold BattleSimulator.round.
  destruct (BattleSimulator.turn_order _) as [first_pokemon second_pokemon].
  intros H. apply bind_Ok in H as ([td1 st1] & Hfirst & H).
  apply first_turn_phases in Hfirst. simpl in H.
  destruct (BattleSimulator.fainted st1) eqn:Hfaint.
  - injection H as <- <-. exists st1, td1.
    split; [done|]. split; [done|]. symmetry. exact Hfaint.
  - apply bind_Ok in H as ([td2 st2] & Hsecond & H).
    apply second_turn_phases in Hsecond. simpl in H.
    pose proof (step_status db P1 td2 st2) as Hs1.
    destruct (BattleSimulator.status_phase P1 td2 st2) as [td3 st3].
    pose proof (step_status db P2 td3 st3) as Hs2.
    destruct (BattleSimulator.status_phase P2 td3 st3) as [td4 st4].
    injection H as <- <-. exists st4, td4. split; [|done].
    etrans; [exact Hfirst|]. etrans; [exact Hsecond|].
    eapply rtc_l; [exact Hs1|]. by apply rtc_once.
Qed.

Lemma same_log_refl st : same_log st st.
Proof. by split. Qed.

Lemma same_log_trans st st' st'' :
  same_log st st' → same_log st' st'' → same_log st st''.
Proof. intros [H1 H2] [H3 H4]. split; congruence. Qed.

Lemma attack_applied_same_log db attacker target st st' :
  attack_applied db attacker target st st' → same_log st st'.
Proof.
  intros (move & r0 & damage & crit & inflicted & defender & r & _ & H).
  cbv zeta in H. destruct H as [-> | ->]; by destruct target.
Qed.

Lemma status_phase_cases pkmn td st :
  let st' := (BattleSimulator.status_phase pkmn td st).2 in
  st' = st
  ∨ (∃ d, st' = BattleSimulator.set_hp1 (Z.max 0 (current_hp1 st - d)) st)
  ∨ (∃ d, st' = BattleSimulator.set_hp2 (Z.max 0 (current_hp2 st - d)) st).
Proof.
  unfold BattleSimulator.status_phase.
  destruct (_ || _); [|by left].
  destruct (StatusEffectManager.process_status_damage _) as [d msg].
  case_bool_decide; [|by left].
  destruct (BattleSimulator.eq_pokemon1 pkmn st); simpl; eauto.
Qed.

Lemma phase_step_same_log db st st' :
  phase_step db st st' → same_log st st'.
Proof.
  destruct 1 as [who td st | f s td st td' st' H | f s td st td' st' H
                | pkmn td st].
  - destruct (gate_unfold who td st) as (can & td1 & p & r & -> & _).
    by destruct who.
  - apply first_attack_inv in H as [-> | [target H]];
      [apply same_log_refl | by eapply attack_applied_same_log].
  - apply second_attack_inv in H as [-> | H];
      [apply same_log_refl | by eapply attack_applied_same_log].
  - destruct (status_phase_cases pkmn td st) as [-> | [[d ->] | [d ->]]];
      by split.
Qed.

Lemma phases_same_log db st st' :
  rtc (phase_step db) st st' → same_log st st'.
Proof.
  induction 1 as [|st mid st' Hstep _ IH]; [apply same_log_refl|].
  eapply same_log_trans; [|exact IH]. by eapply phase_step_same_log.
Qed.

Lemma round_log db st st' broke :
  BattleSimulator.round db st = Ok (st', broke) →
  turn_count st' = turn_count st + 1
  ∧ length (turns_log st') = S (length (turns_log st)).
Proof.
  intros (mid & td & Hphases & -> & _)%round_phases.
  apply phases_same_log in Hphases as [Hlog Hcount]. simpl in *.
  rewrite Hlog, Hcount, length_app. simpl. split; lia.
Qed.

Lemma battle_loop_terminates db fuel st :
  0 ≤ turn_count st ≤ 100 →
  Z.of_nat (length (turns_log st)) = turn_count st →
  100 - turn_count st ≤ Z.of_nat fuel →
  ∃ outcome,
    BattleSimulator.battle_loop fuel db st = Some outcome
    ∧ ∀ st', outcome = Ok st' → (length (turns_log st') ≤ 100)%nat.
Proof.
  revert st. induction fuel as [|fuel IH]; intros st Hcount Hlen Hfuel.
  - simpl. destruct (BattleSimulator.loop_condition st) eqn:Hcond.
    + unfold BattleSimulator.loop_condition, BattleSimulator.max_turns in Hcond.
      apply andb_prop in Hcond as [_ Hlt%bool_decide_eq_true]. lia.
    + eexists. split; [reflexivity|]. intros st' [= <-]. lia.
  - simpl. destruct (BattleSimulator.loop_condition st) eqn:Hcond.
    + unfold BattleSimulator.loop_condition, BattleSimulator.max_turns in Hcond.
      apply andb_prop in Hcond as [_ Hlt%bool_decide_eq_true].
      destruct (BattleSimulator.round db st) as [[st1 broke]|e] eqn:Hround.
      * apply round_log in Hround as [Hc Hl].
        destruct broke.
        -- eexists. split; [reflexivity|]. intros st' [= <-]. lia.
        -- apply IH; lia.
      * eexists. split; [reflexivity|]. discriminate.
    + eexists. split; [reflexivity|]. intros st' [= <-]. lia.
Qed.

(** C4: [simulate_battle] always comes to an end, with a result or with an
    exception of the damage arithmetic: 100 iterations of the loop are
    enough for any two combatants, and the log it returns has at most 100
    turn records. *)
Theorem simulate_battle_terminates (db : PokemonDatabase)
    (pokemon1 pokemon2 : Pokemon) (r : Random) (extra : nat) :
  ∃ outcome,
    BattleSimulator.simulate_battle (100 + extra) db pokemon1 pokemon2 r
    = Some outcome
    ∧ ∀ result, outcome = Ok result → (length (turns result) ≤ 100)%nat.
Proof.
  unfold BattleSimulator.simulate_battle, BattleSimulator.run_battle.
  destruct (battle_loop_terminates db (100 + extra)
              (BattleSimulator.initial_state pokemon1 pokemon2 r))
    as (outcome & -> & Hlen); simpl; try lia.
  destruct outcome as [st|e].
  - eexists. split; [reflexivity|]. intros result [= <-]. simpl. by apply Hlen.
  - eexists. split; [reflexivity|]. discriminate.
Qed.

Lemma battle_loop_reachable db fuel st st' :
  BattleSimulator.battle_loop fuel db st = Some (Ok st') →
  reachable db st st'.
Proof.
  unfold reachable. revert st.
  induction fuel as [|fuel IH]; intros st; simpl;
    destruct (BattleSimulator.loop_condition st);
    try discriminate; try (intros [= <-]; done).
  destruct (BattleSimulator.round db st) as [[st1 broke]|e] eqn:Hround;
    [|discriminate].
  assert (Hreach : rtc (battle_step db) st st1).
  { apply round_phases in Hround as (mid & td & Hphases & -> & _).
    eapply rtc_l; [apply step_begin|].
    eapply rtc_r; [|apply step_append].
    eapply rtc_subrel; [|exact Hphases]. intros ? ?. apply step_phase. }
  destruct broke.
  - intros [= <-]. exact Hreach.
  - intros H. etrans; [exact Hreach|]. by apply IH.
Qed.

(** ** Hit points *)

Lemma phase_step_hp db st st' :
  phase_step db st st' →
  (current_hp1 st' = current_hp1 st ∨ 0 ≤ current_hp1 st')
  ∧ (current_hp2 st' = current_hp2 st ∨ 0 ≤ current_hp2 st').
Proof.
  assert (Hattack : ∀ attacker target, attack_applied db attacker target st st' →
            (current_hp1 st' = current_hp1 st ∨ 0 ≤ current_hp1 st')
            ∧ (current_hp2 st' = current_hp2 st ∨ 0 ≤ current_hp2 st')).
  { intros attacker target (move & r0 & damage & crit & inflicted & defender & r & _ & H).
    cbv zeta in H. destruct H as [-> | ->]; destruct target; simpl;
      split; (by left) || (right; lia). }
  destruct 1 as [who td st | f s td st td' st' H | f s td st td' st' H
                | pkmn td st].
  - destruct (gate_unfold who td st) as (can & td1 & p & r & -> & _).
    destruct who; simpl; auto.
  - apply first_attack_inv in H as [-> | [target H]]; eauto.
  - apply second_attack_inv in H as [-> | H]; eauto.
  - destruct (status_phase_cases pkmn td st) as [-> | [[d ->] | [d ->]]];
      simpl; split; (by left) || (right; lia).
Qed.

Lemma battle_step_clamps db st st' :
  battle_step db st st' →
  (current_hp1 st' = current_hp1 st ∨ 0 ≤ current_hp1 st')
  ∧ (current_hp2 st' = current_hp2 st ∨ 0 ≤ current_hp2 st').
Proof.
  intros [st0 | st0 st1 Hphase | td st0]; simpl; [by split; left| |by split; left].
  by apply (phase_step_hp db).
Qed.

Lemma battle_step_hp db st st' :
  battle_step db st st' →
  0 ≤ current_hp1 st ∧ 0 ≤ current_hp2 st →
  0 ≤ current_hp1 st' ∧ 0 ≤ current_hp2 st'.
Proof.
  intros [[-> | ?] [-> | ?]]%battle_step_clamps [H1 H2]; done.
Qed.

(** C5: the HP that [simulate_battle] tracks for the two combatants is never
    negative: with combatants that enter the battle at 0 HP or more, it is
    at least 0 at every point of every round, and in the state in which the
    loop is left; and whatever the state, a step of the battle leaves each
    counter as it was or at 0 or more. *)
Theorem hp_never_negative (db : PokemonDatabase) (pokemon1 pokemon2 : Pokemon)
    (r : Random) :
  0 ≤ hp pokemon1 → 0 ≤ hp pokemon2 →
  (∀ st, reachable db (BattleSimulator.initial_state pokemon1 pokemon2 r) st →
         0 ≤ current_hp1 st ∧ 0 ≤ current_hp2 st)
  ∧ (∀ fuel st,
       BattleSimulator.run_battle fuel db pokemon1 pokemon2 r = Some (Ok st) →
       0 ≤ current_hp1 st ∧ 0 ≤ current_hp2 st)
  ∧ (∀ st st',
       battle_step db st st' →
       (current_hp1 st' = current_hp1 st ∨ 0 ≤ current_hp1 st')
       ∧ (current_hp2 st' = current_hp2 st ∨ 0 ≤ current_hp2 st')).
Proof.
  intros H1 H2.
  assert (Hinv : ∀ st,
            reachable db (BattleSimulator.initial_state pokemon1 pokemon2 r) st →
            0 ≤ current_hp1 st ∧ 0 ≤ current_hp2 st).
  { intros st Hreach.
    eapply (rtc_ind_r (fun st => 0 ≤ current_hp1 st ∧ 0 ≤ current_hp2 st));
      [ | | exact Hreach]; [done|].
    intros mid st' _ Hstep IH. by eapply battle_step_hp. }
  split; [exact Hinv|]. split; [|apply battle_step_clamps].
  intros fuel st Hrun. by apply Hinv, (battle_loop_reachable db fuel).
Qed.

Lemma hp_never_negative_witness :
  ∃ st,
    BattleSimulator.run_battle 100 neutral_db normal_attacker fire_attacker
      even_random = Some (Ok st)
    ∧ current_hp1 st = 0
    ∧ 0 ≤ current_hp1 st ∧ 0 ≤ current_hp2 st.
Proof.
  eexists. split; [vm_compute; reflexivity|]. split; [reflexivity|].
  apply (proj1 (proj2 (hp_never_negative neutral_db normal_attacker
                         fire_attacker even_random ltac:(done) ltac:(done)))
           100%nat).
  vm_compute. reflexivity.
Defined.

(** ** Status conditions *)

Lemma remove_absent (e : StatusEffect) l : e ∉ l → Py.remove e l = l.
Proof.
  induction l as [|y l IH]; simpl; [done|].
  intros Hnot. case_decide as Heq.
  - subst. exfalso. apply Hnot. left.
  - f_equal. apply IH. intros ?. apply Hnot. by right.
Qed.

Lemma majors_remove e l :
  e ∈ StatusEffectManager.major_statuses →
  majors (Py.remove e l) = Py.remove e (majors l).
Proof.
  intros He. unfold majors.
  induction l as [|y l IH]; simpl; [done|].
  destruct (decide (e = y)) as [<-|Hne].
  - rewrite filter_cons_True by done. simpl. by rewrite decide_True.
  - rewrite !filter_cons. case_decide; simpl.
    + rewrite decide_False by done. by rewrite IH.
    + exact IH.
Qed.

Lemma majors_app l1 l2 : majors (l1 ++ l2) = (majors l1 ++ majors l2)%list.
Proof. apply filter_app. Qed.

Lemma drop_statuses_majors es p :
  Forall (fun e => e ∈ StatusEffectManager.major_statuses) es →
  majors (status_effects
            (foldl
               (fun q existing_status =>
                  if Py.contains existing_status (status_effects q)
                  then set_status q (Py.remove existing_status (status_effects q))
                         (delete existing_status (status_turns q))
                  else q)
               p es))
  = foldl (fun ms e => Py.remove e ms) (majors (status_effects p)) es.
Proof.
  revert p. induction es as [|e es IH]; intros p Hall; simpl; [done|].
  apply Forall_cons in Hall as [He Hall]. rewrite IH by done. f_equal.
  unfold Py.contains. case_bool_decide as Hin; simpl.
  - by apply majors_remove.
  - symmetry. apply remove_absent. intros [_ ?]%list_elem_of_filter. done.
Qed.

Lemma remove_major_majors p :
  majors (status_effects (StatusEffectManager.remove_major p))
  = foldl (fun ms e => Py.remove e ms) (majors (status_effects p))
      StatusEffectManager.major_statuses.
Proof. apply drop_statuses_majors, Forall_forall. auto. Qed.

Lemma remove_major_clears p :
  status_ok p → majors (status_effects (StatusEffectManager.remove_major p)) = [].
Proof.
  unfold status_ok. rewrite remove_major_majors.
  destruct (majors (status_effects p)) as [|m [|m' ms]] eqn:Hm; simpl;
    [done | | lia].
  intros _.
  assert (Hmajor : m ∈ StatusEffectManager.major_statuses).
  { assert (m ∈ majors (status_effects p)) as [? _]%list_elem_of_filter
      by (rewrite Hm; left).
    done. }
  destruct m; try reflexivity.
  exfalso. revert Hmajor. unfold StatusEffectManager.major_statuses.
  rewrite !elem_of_cons, elem_of_nil.
  intros [?|[?|[?|[?|[?|[]]]]]]; discriminate.
Qed.

Lemma drop_statuses_keeps x es p :
  x ∉ es →
  x ∈ status_effects p →
  x ∈ status_effects
        (foldl
           (fun q existing_status =>
              if Py.contains existing_status (status_effects q)
              then set_status q (Py.remove existing_status (status_effects q))
                     (delete existing_status (status_turns q))
              else q)
           p es).
Proof.
  revert p. induction es as [|e es IH]; intros p Hx Hin; simpl; [done|].
  apply not_elem_of_cons in Hx as [Hne Hx]. apply IH; [done|].
  destruct (Py.contains e (status_effects p)); [|done]. simpl.
  clear IH. induction (status_effects p) as [|y l IHl]; simpl; [done|].
  case_decide as Heq.
  - apply elem_of_cons in Hin as [->|?]; [|done]. by subst.
  - apply elem_of_cons in Hin as [->|?]; [left | right; auto].
Qed.

Lemma remove_major_keeps x p :
  x ∉ StatusEffectManager.major_statuses →
  x ∈ status_effects p →
  x ∈ status_effects (StatusEffectManager.remove_major p).
Proof. apply drop_statuses_keeps. Qed.

Lemma confusion_not_major : CONFUSION ∉ StatusEffectManager.major_statuses.
Proof.
  unfold StatusEffectManager.major_statuses.
  rewrite !elem_of_cons, elem_of_nil.
  intros [?|[?|[?|[?|[?|[]]]]]]; discriminate.
Qed.

Lemma apply_status_effect_statuses p status r :
  status_effects (StatusEffectManager.apply_status_effect p status r).1.2
  = if Py.contains status (status_effects p) then status_effects p
    else if Py.contains status StatusEffectManager.major_statuses
         then (status_effects (StatusEffectManager.remove_major p) ++ [status])%list
         else (status_effects p ++ [status])%list.
Proof.
  unfold StatusEffectManager.apply_status_effect.
  destruct (Py.contains status (status_effects p)); [reflexivity|].
  destruct (Py.contains status StatusEffectManager.major_statuses);
    destruct status; simpl;
    repeat match goal with
           | |- context [random.randint ?a ?b ?r] =>
               destruct (random.randint a b r)
           end; reflexivity.
Qed.

Lemma apply_status_effect_ok p status r :
  status_ok p →
  status_ok (StatusEffectManager.apply_status_effect p status r).1.2.
Proof.
  intros Hok. unfold status_ok. rewrite apply_status_effect_statuses.
  destruct (Py.contains status (status_effects p)); [exact Hok|].
  unfold Py.contains. case_bool_decide as Hmajor.
  - rewrite majors_app, remove_major_clears by done.
    unfold majors. rewrite filter_cons_True by done. simpl. lia.
  - rewrite majors_app. unfold majors at 2.
    rewrite filter_cons_False by done. simpl. by rewrite app_nil_r.
Qed.

Lemma majors_sublist l1 l2 :
  sublist l1 l2 → (length (majors l1) ≤ length (majors l2))%nat.
Proof.
  unfold majors.
  induction 1 as [|x l1 l2 _ IH|x l1 l2 _ IH]; [done| |];
    rewrite ?filter_cons; repeat case_decide; simpl; lia.
Qed.

Lemma can_move_ok p r :
  status_ok p → status_ok (StatusEffectManager.can_move p r).1.2.
Proof.
  unfold status_ok, StatusEffectManager.can_move. intros Hok.
  destruct (can_move_loop_weakens (status_effects p) p [] r) as [_ Hsub].
  etrans; [|exact Hok]. by apply majors_sublist.
Qed.

Lemma calculate_damage_defender db attacker defender move r result defender' r' :
  BattleSimulator._calculate_damage db attacker defender move r
  = Ok (result, defender', r') →
  defender' = defender
  ∨ ∃ status r0,
      defender' = (StatusEffectManager.apply_status_effect defender status r0).1.2.
Proof.
  unfold BattleSimulator._calculate_damage.
  destruct (_ || _); [intros [= _ <- _]; by left|].
  intros (base & _ & H)%bind_Ok.
  destruct (random.random r) as [x r1].
  apply bind_Ok in H as (crit & _ & H).
  destruct (random.uniform _ _ r1) as [factor r2].
  apply bind_Ok in H as (d & _ & H).
  destruct (BattleSimulator._get_move_status_chance _) as [status_effect chance].
  destruct status_effect as [status|]; [|injection H as _ <- _; by left].
  destruct (random.random r2) as [y r3].
  destruct (PrimFloat.ltb y chance); [|injection H as _ <- _; by left].
  pose proof (eq_refl (StatusEffectManager.apply_status_effect defender status r3))
    as Happly.
  destruct (StatusEffectManager.apply_status_effect defender status r3)
    as [[msg q] r4] in H, Happly at 2.
  injection H as _ <- _. right. exists status, r3. by rewrite Happly.
Qed.

(** Any property of the status list that is inherited by sublists and kept
    by [apply_status_effect] holds of both combatants throughout a battle. *)
Section StatusInvariant.

Variable Inv : list StatusEffect → Prop.

Hypothesis Inv_sublist : ∀ l1 l2, sublist l1 l2 → Inv l2 → Inv l1.

Hypothesis Inv_apply : ∀ p status r,
  Inv (status_effects p) →
  Inv (status_effects (StatusEffectManager.apply_status_effect p status r).1.2).

Let holds (st : BattleState) : Prop :=
  Inv (status_effects (pokemon1 st)) ∧ Inv (status_effects (pokemon2 st)).

Lemma attack_applied_preserves db attacker target st st' :
  holds st → attack_applied db attacker target st st' → holds st'.
Proof.
  intros [Hok1 Hok2]
    (move & r0 & damage & crit & inflicted & defender & r & Hcalc & H).
  assert (Hdef : Inv (status_effects defender)).
  { apply calculate_damage_defender in Hcalc as [-> | (status & r1 & ->)].
    - by destruct target.
    - apply Inv_apply. by destruct target. }
  cbv zeta in H. destruct H as [-> | ->]; destruct target; by split.
Qed.

Lemma phase_step_preserves db st st' :
  phase_step db st st' → holds st → holds st'.
Proof.
  destruct 1 as [who td st | f s td st td' st' H | f s td st td' st' H
                | pkmn td st]; intros Hok.
  - destruct (gate_unfold who td st) as (can & td1 & p & r & -> & _ & Hsub).
    destruct Hok as [Hok1 Hok2].
    destruct who; split; simpl in *; eauto.
  - apply first_attack_inv in H as [-> | [target H]];
      [done | by eapply attack_applied_preserves].
  - apply second_attack_inv in H as [-> | H];
      [done | by eapply attack_applied_preserves].
  - by destruct (status_phase_cases pkmn td st) as [-> | [[d ->] | [d ->]]].
Qed.

Lemma reachable_preserves db st st' :
  reachable db st st' → holds st → holds st'.
Proof.
  induction 1 as [|st mid st' Hstep _ IH]; [done|].
  intros Hok. apply IH.
  destruct Hstep as [st0 | st0 st1 Hphase | td st0]; [done| |done].
  by eapply phase_step_preserves.
Qed.

End StatusInvariant.

Lemma remove_major_sublist p :
  sublist (status_effects (StatusEffectManager.remove_major p)) (status_effects p).
Proof.
  unfold StatusEffectManager.remove_major.
  generalize StatusEffectManager.major_statuses. intros es. revert p.
  induction es as [|e es IH]; intros p; simpl; [done|].
  etrans; [apply IH|].
  destruct (Py.contains e (status_effects p)); [apply remove_sublist | done].
Qed.

Lemma apply_status_effect_NoDup p status r :
  NoDup (status_effects p) →
  NoDup (status_effects (StatusEffectManager.apply_status_effect p status r).1.2).
Proof.
  intros Hnd. rewrite apply_status_effect_statuses. unfold Py.contains at 1.
  case_bool_decide as Hin; [done|].
  assert (Hnew : ∀ l, sublist l (status_effects p) → NoDup (l ++ [status])).
  { intros l Hsub. apply NoDup_app. split; [by eapply sublist_NoDup|].
    split; [|apply NoDup_singleton].
    intros x Hx ->%list_elem_of_singleton. apply Hin.
    by eapply elem_of_sublist. }
  destruct (Py.contains status StatusEffectManager.major_statuses);
    apply Hnew; [apply remove_major_sublist | done].
Qed.

Lemma reachable_statuses_ok db st st' :
  reachable db st st' → statuses_ok st → statuses_ok st'.
Proof.
  apply (reachable_preserves (fun l => (length (majors l) ≤ 1)%nat)).
  - intros l1 l2 Hsub%majors_sublist. lia.
  - intros p status r. apply apply_status_effect_ok.
Qed.

(** The status lists stay free of duplicates. *)
Lemma reachable_NoDup db st st' :
  reachable db st st' →
  NoDup (status_effects (pokemon1 st)) ∧ NoDup (status_effects (pokemon2 st)) →
  NoDup (status_effects (pokemon1 st')) ∧ NoDup (status_effects (pokemon2 st')).
Proof.
  apply (reachable_preserves (fun l => NoDup l)).
  - intros l1 l2 Hsub Hnd. by eapply sublist_NoDup.
  - apply apply_status_effect_NoDup.
Qed.

(** C3: a combatant never holds two of the five major conditions.  With
    combatants that enter the battle with at most one, this holds at every
    point of every round and in the state in which the loop is left;
    [apply_status_effect] with a new major condition leaves that one as the
    only major condition; confusion survives every application, and applying
    confusion leaves the major condition as it is. *)
Theorem one_major_condition_at_most (db : PokemonDatabase)
    (pokemon1 pokemon2 : Pokemon) (r : Random) :
  status_ok pokemon1 → status_ok pokemon2 →
  (∀ st, reachable db (BattleSimulator.initial_state pokemon1 pokemon2 r) st →
         statuses_ok st)
  ∧ (∀ fuel st,
       BattleSimulator.run_battle fuel db pokemon1 pokemon2 r = Some (Ok st) →
       statuses_ok st)
  ∧ (∀ p status rnd,
       status_ok p →
       status ∈ StatusEffectManager.major_statuses →
       status ∉ status_effects p →
       majors (status_effects
                 (StatusEffectManager.apply_status_effect p status rnd).1.2)
       = [status])
  ∧ (∀ p status rnd,
       CONFUSION ∈ status_effects p →
       CONFUSION ∈ status_effects
                     (StatusEffectManager.apply_status_effect p status rnd).1.2)
  ∧ (∀ p rnd,
       majors (status_effects
                 (StatusEffectManager.apply_status_effect p CONFUSION rnd).1.2)
       = majors (status_effects p)).
Proof.
  intros H1 H2.
  assert (Hinv : ∀ st,
            reachable db (BattleSimulator.initial_state pokemon1 pokemon2 r) st →
            statuses_ok st).
  { intros st Hreach. by eapply reachable_statuses_ok. }
  split; [exact Hinv|]. split.
  { intros fuel st Hrun. by apply Hinv, (battle_loop_reachable db fuel). }
  split; [|split].
  - intros p status rnd Hok Hmajor Hnew.
    rewrite apply_status_effect_statuses. unfold Py.contains.
    rewrite bool_decide_eq_false_2, bool_decide_eq_true_2 by done.
    rewrite majors_app, remove_major_clears by done.
    unfold majors. by rewrite filter_cons_True.
  - intros p status rnd Hin.
    rewrite apply_status_effect_statuses.
    destruct (Py.contains status (status_effects p)); [done|].
    destruct (Py.contains status StatusEffectManager.major_statuses);
      apply elem_of_app; left; [|done].
    apply remove_major_keeps; [apply confusion_not_major | done].
  - intros p rnd. rewrite apply_status_effect_statuses.
    destruct (Py.contains CONFUSION (status_effects p)); [done|].
    unfold Py.contains.
    rewrite bool_decide_eq_false_2 by apply confusion_not_major.
    rewrite majors_app. unfold majors at 2.
    rewrite filter_cons_False by apply confusion_not_major.
    simpl. by rewrite app_nil_r.
Qed.

Lemma one_major_condition_at_most_witness :
  ∃ st,
    BattleSimulator.run_battle 100 neutral_db inflictor fire_attacker
      alternating_random = Some (Ok st)
    ∧ status_effects (pokemon1 st) = [BURN]
    ∧ status_effects (pokemon2 st) = [SLEEP]
    ∧ statuses_ok st.
Proof.
  eexists. split; [vm_compute; reflexivity|].
  split; [reflexivity|]. split; [reflexivity|].
  assert (Hstart : status_ok inflictor ∧ status_ok fire_attacker)
    by (split; vm_compute; lia).
  destruct Hstart as [Ha Hb].
  apply (proj1 (proj2 (one_major_condition_at_most neutral_db inflictor
                         fire_attacker alternating_random Ha Hb)) 100%nat).
  vm_compute. reflexivity.
Defined.

(** * Further properties of the code *)

(** ** Type effectiveness *)

Lemma get_type_effectiveness_snoc db attacking_type defending_types d :
  get_type_effectiveness db attacking_type (defending_types ++ [d])
  = match type_effectiveness_view db attacking_type d with
    | Some row =>
        PrimFloat.mul
          (get_type_effectiveness db attacking_type defending_types) row
    | None => get_type_effectiveness db attacking_type defending_types
    end.
Proof. unfold get_type_effectiveness. by rewrite foldl_app. Qed.

(** X1: [get_type_effectiveness] is neutral on unknown pairs: when the view
    has no row for the attacking type against any of the defending types
    (or there is no defending type), the multiplier is exactly 1.0. *)
Theorem unknown_pairs_are_neutral (db : PokemonDatabase)
    (attacking_type : string) (defending_types : list string) :
  (∀ d, d ∈ defending_types →
        type_effectiveness_view db attacking_type d = None) →
  get_type_effectiveness db attacking_type defending_types = 1%float.
Proof.
  unfold get_type_effectiveness. generalize 1%float as total.
  induction defending_types as [|d l IH]; intros total Hnone; simpl; [done|].
  rewrite (Hnone d) by left. apply IH. intros d' Hd'. apply Hnone. by right.
Qed.

Lemma unknown_pairs_are_neutral_witness :
  get_type_effectiveness neutral_db "fire" ["grass"; "water"] = 1%float.
Proof.
  apply (unknown_pairs_are_neutral neutral_db "fire" ["grass"; "water"]).
  intros d _. reflexivity.
Defined.

(** ** The status manager *)

Lemma occurrences_nonneg s l : 0 ≤ occurrences s l.
Proof. unfold occurrences. lia. Qed.

Lemma occurrences_zero s l : occurrences s l = 0 ↔ s ∉ l.
Proof.
  unfold occurrences. induction l as [|x l IH]; simpl.
  - split; [intros _; apply not_elem_of_nil | done].
  - rewrite filter_cons, not_elem_of_cons.
    destruct (decide (x = s)) as [->|Hne]; simpl.
    + split; [lia | intros [? _]; done].
    + rewrite IH. split; [intros ?; split; [congruence | done] | by intros [_ ?]].
Qed.

(** X2: the end-of-round damage of [process_status_damage] is 0 exactly for
    a combatant that is neither burned nor poisoned and at least 1 for any
    other, whatever its maximal HP (0 or negative included). *)
Theorem status_damage_zero_iff (p : Pokemon) :
  ((StatusEffectManager.process_status_damage p).1 = 0
   ↔ ¬ (BURN ∈ status_effects p ∨ POISON ∈ status_effects p))
  ∧ ((StatusEffectManager.process_status_damage p).1 = 0
     ∨ 1 ≤ (StatusEffectManager.process_status_damage p).1).
Proof.
  unfold StatusEffectManager.process_status_damage.
  pose proof (status_damage_loop_sum p (status_effects p) 0 []) as Hsum.
  destruct (StatusEffectManager.status_damage_loop p (status_effects p) 0 [])
    as [damage messages].
  simpl in *.
  assert (Hb := occurrences_zero BURN (status_effects p)).
  assert (Hp := occurrences_zero POISON (status_effects p)).
  pose proof (occurrences_nonneg BURN (status_effects p)).
  pose proof (occurrences_nonneg POISON (status_effects p)).
  split; [|nia]. split.
  - intros Hzero [Hin|Hin]; [apply Hb in Hin | apply Hp in Hin]; [done|nia|done|nia].
  - intros Hnone. rewrite (proj2 Hb), (proj2 Hp) in Hsum by tauto. lia.
Qed.

Lemma remove_keeps (x e : StatusEffect) l :
  x ≠ e → x ∈ l → x ∈ Py.remove e l.
Proof.
  intros Hne. induction l as [|y l IH]; simpl; [done|].
  intros [->|Hin]%elem_of_cons.
  - rewrite decide_False by done. left.
  - case_decide; [done | right; auto].
Qed.

Lemma can_move_loop_keeps s l p messages r :
  s ∈ [BURN; POISON; PARALYSIS] →
  s ∈ status_effects p →
  s ∈ status_effects (StatusEffectManager.can_move_loop l p messages r).1.2.
Proof.
  intros Hs.
  assert (Hne : s ≠ SLEEP ∧ s ≠ FREEZE ∧ s ≠ CONFUSION).
  { revert Hs. rewrite !elem_of_cons, elem_of_nil.
    intros [->|[->|[->|[]]]]; done. }
  destruct Hne as (Hsleep & Hfreeze & Hconf).
  revert p messages r.
  induction l as [|e l IH]; intros p messages r Hin; simpl; [done|].
  destruct e; simpl; try by apply IH.
  - destruct (random.random r) as [x r'].
    destruct (PrimFloat.ltb x 0.25); simpl; [done | by apply IH].
  - repeat case_bool_decide; simpl; try by apply IH.
    + by apply remove_keeps.
    + done.
  - destruct (random.random r) as [x r'].
    destruct (PrimFloat.ltb x 0.2); simpl; [by apply remove_keeps | done].
  - repeat case_bool_decide; simpl; try by apply IH.
    + apply IH. simpl. by apply remove_keeps.
    + destruct (random.random r) as [x r'].
      destruct (PrimFloat.ltb x 0.5); simpl; [done | by apply IH].
Qed.

(** X3: [can_move] never inflicts a condition and never cures burn, poison
    or paralysis: the conditions after the call are a sublist of those
    before it, and each of these three is still held if it was. *)
Theorem can_move_never_cures_lasting_conditions (p : Pokemon) (r : Random) :
  sublist (status_effects (StatusEffectManager.can_move p r).1.2)
    (status_effects p)
  ∧ ∀ s, s ∈ [BURN; POISON; PARALYSIS] →
         s ∈ status_effects p →
         s ∈ status_effects (StatusEffectManager.can_move p r).1.2.
Proof.
  split.
  - apply (can_move_loop_weakens (status_effects p) p [] r).
  - intros s Hs Hin. by apply can_move_loop_keeps.
Qed.

Lemma apply_status_effect_holds p status r :
  status ∈ status_effects (StatusEffectManager.apply_status_effect p status r).1.2.
Proof.
  rewrite apply_status_effect_statuses. unfold Py.contains at 1.
  case_bool_decide; [done|].
  destruct (Py.contains status StatusEffectManager.major_statuses);
    apply elem_of_app; right; left.
Qed.

(** X4: applying a condition a second time changes nothing: the combatant
    is as after the first application, no draw is consumed, and the message
    says that the condition is already held. *)
Theorem apply_status_effect_twice (p : Pokemon) (status : StatusEffect)
    (r r2 : Random) :
  let once := (StatusEffectManager.apply_status_effect p status r).1.2 in
  StatusEffectManager.apply_status_effect once status r2
  = (name p +:+ " is already " +:+ status_str status +:+ "!", once, r2).
Proof.
  cbv zeta.
  pose proof (apply_status_effect_holds p status r) as Hin.
  assert (Hname :
    name (StatusEffectManager.apply_status_effect p status r).1.2 = name p).
  { unfold StatusEffectManager.apply_status_effect.
    destruct (Py.contains status (status_effects p)); [done|].
    assert (Hrm : name (StatusEffectManager.remove_major p) = name p).
    { unfold StatusEffectManager.remove_major.
      generalize StatusEffectManager.major_statuses. intros es. revert p Hin.
      induction es as [|e es IH]; intros p _; simpl; [done|].
      rewrite IH; [|apply apply_status_effect_holds].
      by destruct (Py.contains e (status_effects p)). }
    destruct (Py.contains status StatusEffectManager.major_statuses);
      destruct status; simpl;
      repeat match goal with
             | |- context [random.randint ?a ?b ?r] =>
                 destruct (random.randint a b r)
             end; simpl; done. }
  unfold StatusEffectManager.apply_status_effect at 1.
  unfold Py.contains at 1. rewrite bool_decide_eq_true_2 by exact Hin.
  by rewrite Hname.
Qed.

(** ** What an attack may change *)

Lemma remove_major_same_body p :
  same_body p (StatusEffectManager.remove_major p).
Proof.
  unfold StatusEffectManager.remove_major.
  generalize StatusEffectManager.major_statuses. intros es. revert p.
  induction es as [|e es IH]; intros p; simpl; [apply same_body_refl|].
  eapply same_body_trans; [|apply IH].
  destruct (Py.contains e (status_effects p));
    [apply same_body_set_status | apply same_body_refl].
Qed.

Lemma same_body_set_status_r p q effects turns :
  same_body p q → same_body p (set_status q effects turns).
Proof.
  intros H. eapply same_body_trans; [exact H | apply same_body_set_status].
Qed.

Lemma apply_status_effect_same_body p status r :
  same_body p (StatusEffectManager.apply_status_effect p status r).1.2.
Proof.
  unfold StatusEffectManager.apply_status_effect.
  destruct (Py.contains status (status_effects p)); [apply same_body_refl|].
  assert (Hbase : same_body p
            (if Py.contains status StatusEffectManager.major_statuses
             then StatusEffectManager.remove_major p else p)).
  { destruct (Py.contains status _);
      [apply remove_major_same_body | apply same_body_refl]. }
  destruct status; simpl;
    try (destruct (random.randint _ _ r) as [n r0]; simpl);
    do 2 (try apply same_body_set_status_r); exact Hbase.
Qed.

(** The outcome of a damage calculation that did not raise. *)
Lemma calculate_damage_outcome db attacker defender move r
    damage is_critical status_inflicted defender' r' :
  BattleSimulator._calculate_damage db attacker defender move r
  = Ok ((damage, is_critical, status_inflicted), defender', r') →
  0 ≤ damage
  ∧ match status_inflicted with
    | None => defender' = defender
    | Some status =>
        (BattleSimulator._get_move_status_chance (move_name move)).1
        = Some status
        ∧ ∃ r0, defender'
                = (StatusEffectManager.apply_status_effect defender status r0).1.2
    end.
Proof.
  unfold BattleSimulator._calculate_damage.
  destruct (_ || _); [by intros [= <- _ <- <- _]|].
  intros (base & _ & H)%bind_Ok.
  destruct (random.random r) as [x r1].
  apply bind_Ok in H as (crit & _ & H).
  destruct (random.uniform _ _ r1) as [factor r2].
  apply bind_Ok in H as (d & _ & H).
  destruct (BattleSimulator._get_move_status_chance _) as [status_effect chance].
  destruct status_effect as [status|];
    [|injection H as <- _ <- <- _; split; [lia | done]].
  destruct (random.random r2) as [y r3].
  destruct (PrimFloat.ltb y chance);
    [|injection H as <- _ <- <- _; split; [lia | done]].
  pose proof (eq_refl (StatusEffectManager.apply_status_effect defender status r3))
    as Happly.
  destruct (StatusEffectManager.apply_status_effect defender status r3)
    as [[msg q] r4] in H, Happly at 2.
  injection H as <- _ <- <- _. split; [lia|]. split; [done|].
  exists r3. by rewrite Happly.
Qed.

(** X5: when [_calculate_damage] reports a status as inflicted, the defender
    holds that status afterwards, and the move is one that the status table
    lists with it; when it reports none, the defender is returned as it
    was.  In both cases only the defender's conditions and counters can
    differ, and the damage is never negative. *)
Theorem reported_status_is_held (db : PokemonDatabase)
    (attacker defender : Pokemon) (move : Move) (r : Random)
    (damage : Z) (is_critical : bool) (status_inflicted : option StatusEffect)
    (defender' : Pokemon) (r' : Random) :
  BattleSimulator._calculate_damage db attacker defender move r
  = Ok ((damage, is_critical, status_inflicted), defender', r') →
  0 ≤ damage
  ∧ same_body defender defender'
  ∧ match status_inflicted with
    | None => defender' = defender
    | Some status =>
        status ∈ status_effects defender'
        ∧ (BattleSimulator._get_move_status_chance (move_name move)).1
          = Some status
    end.
Proof.
  intros [Hdamage Hstatus]%calculate_damage_outcome.
  split; [done|]. destruct status_inflicted as [status|].
  - destruct Hstatus as (Htable & r0 & ->).
    split; [apply apply_status_effect_same_body|].
    split; [apply apply_status_effect_holds | done].
  - subst. split; [apply same_body_refl | done].
Qed.

Lemma reported_status_is_held_witness :
  PARALYSIS ∈ status_effects (set_status fire_attacker [PARALYSIS] ∅).
Proof.
  apply (reported_status_is_held neutral_db inflictor fire_attacker nuzzle
           even_random 17 false (Some PARALYSIS)
           (set_status fire_attacker [PARALYSIS] ∅)
           (mkRandom (stream even_random) 3)).
  vm_compute. reflexivity.
Defined.

(** ** What a battle may change *)

Lemma attack_applied_bodies db attacker target st st' :
  attack_applied db attacker target st st' →
  same_body (pokemon1 st) (pokemon1 st')
  ∧ same_body (pokemon2 st) (pokemon2 st').
Proof.
  intros (move & r0 & damage & crit & inflicted & defender & r & Hcalc & H).
  assert (Hdef : same_body (BattleSimulator.get_pokemon target st) defender).
  { apply calculate_damage_defender in Hcalc as [-> | (status & r1 & ->)];
      [apply same_body_refl | apply apply_status_effect_same_body]. }
  cbv zeta in H.
  destruct H as [-> | ->]; destruct target; simpl in *;
    split; (exact Hdef || apply same_body_refl).
Qed.

Lemma battle_step_bodies db st st' :
  battle_step db st st' →
  same_body (pokemon1 st) (pokemon1 st')
  ∧ same_body (pokemon2 st) (pokemon2 st').
Proof.
  intros [st0 | st0 st1 Hphase | td st0];
    [split; apply same_body_refl | | split; apply same_body_refl].
  destruct Hphase as [who td s0 | f s td s0 td' s1 H | f s td s0 td' s1 H
                     | pkmn td s0].
  - destruct (gate_unfold who td s0) as (can & td1 & p & r & -> & Hbody & _).
    destruct who; simpl in *; split; (exact Hbody || apply same_body_refl).
  - apply first_attack_inv in H as [-> | [target H]];
      [split; apply same_body_refl | by eapply attack_applied_bodies].
  - apply second_attack_inv in H as [-> | H];
      [split; apply same_body_refl | by eapply attack_applied_bodies].
  - destruct (status_phase_cases pkmn td s0) as [-> | [[d ->] | [d ->]]];
      split; apply same_body_refl.
Qed.

(** X6: a battle changes nothing of the two [Pokemon] objects but their
    status conditions and counters: at every point the name, the stats, the
    types and the moves are those the combatant entered with, and so is its
    [hp] field, which the simulator never writes to. *)
Theorem battle_changes_only_statuses (db : PokemonDatabase)
    (p1 p2 : Pokemon) (r : Random) (st : BattleState) :
  reachable db (BattleSimulator.initial_state p1 p2 r) st →
  same_body p1 (pokemon1 st)
  ∧ same_body p2 (pokemon2 st)
  ∧ hp (pokemon1 st) = hp p1
  ∧ hp (pokemon2 st) = hp p2.
Proof.
  intros Hreach.
  enough (same_body p1 (pokemon1 st) ∧ same_body p2 (pokemon2 st)) as [H1 H2].
  { split; [done|]. split; [done|].
    unfold same_body in H1, H2. rewrite H1, H2. done. }
  eapply (rtc_ind_r
            (fun st => same_body p1 (pokemon1 st) ∧ same_body p2 (pokemon2 st)));
    [ | | exact Hreach].
  - split; apply same_body_refl.
  - intros mid st' _ Hstep [IH1 IH2].
    apply battle_step_bodies in Hstep as [Hs1 Hs2].
    split; eapply same_body_trans; eauto.
Qed.

Lemma battle_changes_only_statuses_witness :
  ∃ st,
    BattleSimulator.run_battle 100 neutral_db inflictor fire_attacker
      alternating_random = Some (Ok st)
    ∧ status_effects (pokemon2 st) = [SLEEP]
    ∧ hp (pokemon2 st) = 100
    ∧ moves (pokemon2 st) = [ember].
Proof.
  destruct (BattleSimulator.run_battle 100 neutral_db inflictor fire_attacker
              alternating_random) as [[st|e]|] eqn:Hrun;
    [|vm_compute in Hrun; discriminate..].
  pose proof (battle_loop_reachable _ _ _ _ Hrun) as Hreach.
  destruct (battle_changes_only_statuses _ _ _ _ _ Hreach) as (_ & Hb & _ & Hhp).
  exists st. split; [reflexivity|].
  split; [|split; [exact Hhp | by rewrite (same_body_moves _ _ Hb)]].
  vm_compute in Hrun. by injection Hrun as <-.
Defined.

(** ** Hit points never rise *)

Lemma status_phase_drops pkmn td st :
  let st' := (BattleSimulator.status_phase pkmn td st).2 in
  st' = st
  ∨ (∃ d, 0 < d
          ∧ (st' = BattleSimulator.set_hp1 (Z.max 0 (current_hp1 st - d)) st
             ∨ st' = BattleSimulator.set_hp2 (Z.max 0 (current_hp2 st - d)) st)).
Proof.
  unfold BattleSimulator.status_phase.
  destruct (_ || _); [|by left].
  destruct (StatusEffectManager.process_status_damage _) as [d msg].
  case_bool_decide; [|by left].
  right. exists d. split; [lia|].
  destruct (BattleSimulator.eq_pokemon1 pkmn st); simpl; auto.
Qed.

Lemma battle_step_drops db st st' :
  battle_step db st st' →
  0 ≤ current_hp1 st → 0 ≤ current_hp2 st →
  current_hp1 st' ≤ current_hp1 st ∧ current_hp2 st' ≤ current_hp2 st.
Proof.
  assert (Hattack : ∀ s0 s1 attacker target,
            attack_applied db attacker target s0 s1 →
            0 ≤ current_hp1 s0 → 0 ≤ current_hp2 s0 →
            current_hp1 s1 ≤ current_hp1 s0 ∧ current_hp2 s1 ≤ current_hp2 s0).
  { intros s0 s1 attacker target
      (move & r0 & damage & crit & inflicted & defender & r & Hcalc & H) H1 H2.
    apply calculate_damage_outcome in Hcalc as [Hdamage _].
    cbv zeta in H. destruct H as [-> | ->]; destruct target; simpl; lia. }
  intros [st0 | st0 st1 Hphase | td st0] H1 H2; simpl; [lia| |lia].
  destruct Hphase as [who td s0 | f s td s0 td' s1 H | f s td s0 td' s1 H
                     | pkmn td s0].
  - destruct (gate_unfold who td s0) as (can & td1 & p & r & -> & _).
    destruct who; simpl; lia.
  - apply first_attack_inv in H as [-> | [target H]]; [lia | by eapply Hattack].
  - apply second_attack_inv in H as [-> | H]; [lia | by eapply Hattack].
  - destruct (status_phase_drops pkmn td s0) as [-> | (d & Hd & [-> | ->])];
      simpl; lia.
Qed.

(** X7: nothing in a battle restores HP: for combatants that enter at 0 HP
    or more, each tracked HP counter stays between 0 and the HP its
    combatant entered with, and no step of the battle raises it. *)
Theorem hp_never_rises (db : PokemonDatabase) (p1 p2 : Pokemon) (r : Random)
    (st : BattleState) :
  0 ≤ hp p1 → 0 ≤ hp p2 →
  reachable db (BattleSimulator.initial_state p1 p2 r) st →
  0 ≤ current_hp1 st ≤ hp p1
  ∧ 0 ≤ current_hp2 st ≤ hp p2
  ∧ ∀ st', battle_step db st st' →
           current_hp1 st' ≤ current_hp1 st ∧ current_hp2 st' ≤ current_hp2 st.
Proof.
  intros H1 H2 Hreach.
  enough (0 ≤ current_hp1 st ≤ hp p1 ∧ 0 ≤ current_hp2 st ≤ hp p2)
    as [Hb1 Hb2].
  { split; [done|]. split; [done|].
    intros st' Hstep. apply (battle_step_drops db); [done|lia..]. }
  eapply (rtc_ind_r
            (fun st => 0 ≤ current_hp1 st ≤ hp p1 ∧ 0 ≤ current_hp2 st ≤ hp p2));
    [ | | exact Hreach]; [simpl; lia|].
  intros mid st' _ Hstep [IH1 IH2].
  pose proof (battle_step_drops db _ _ Hstep) as Hdrop.
  pose proof (battle_step_hp db _ _ Hstep) as Hpos. lia.
Qed.

Lemma hp_never_rises_witness :
  ∃ st,
    BattleSimulator.run_battle 100 neutral_db normal_attacker fire_attacker
      even_random = Some (Ok st)
    ∧ current_hp2 st = 4
    ∧ 0 ≤ current_hp2 st ≤ 100.
Proof.
  destruct (BattleSimulator.run_battle 100 neutral_db normal_attacker
              fire_attacker even_random) as [[st|e]|] eqn:Hrun;
    [|vm_compute in Hrun; discriminate..].
  pose proof (battle_loop_reachable _ _ _ _ Hrun) as Hreach.
  destruct (hp_never_rises neutral_db normal_attacker fire_attacker even_random
              st ltac:(done) ltac:(done) Hreach) as (_ & Hb & _).
  exists st. split; [reflexivity|]. split; [|exact Hb].
  vm_compute in Hrun. by injection Hrun as <-.
Defined.

(** ** The log *)

Lemma gate_turn who td st :
  turn (BattleSimulator.gate who td st).1.2 = turn td.
Proof.
  unfold BattleSimulator.gate.
  destruct (StatusEffectManager.can_move _ _) as [[[can msg] p] r].
  by case_bool_decide.
Qed.

Lemma first_attack_turn db first_pokemon second_pokemon td st td' st' :
  BattleSimulator.first_attack db first_pokemon second_pokemon td st
  = Ok (td', st') →
  turn td' = turn td.
Proof.
  unfold BattleSimulator.first_attack.
  destruct (moves _); [by intros [= <- _]|].
  destruct (BattleSimulator.attacking_moves _) as [|m0 ms];
    [by intros [= <- _]|].
  destruct (random.choice (m0 :: ms) (rng st)) as [discarded r0].
  destruct (random.choice (m0 :: ms) r0) as [[move|] r1]; [|discriminate].
  intros H. apply bind_Ok in H
    as ([[[[damage is_critical] status_inflicted] defender] r] & _ & H).
  simpl in H.
  destruct (BattleSimulator.eq_pokemon1 first_pokemon _); by injection H as <- _.
Qed.

Lemma second_attack_turn db first_pokemon second_pokemon td st td' st' :
  BattleSimulator.second_attack db first_pokemon second_pokemon td st
  = Ok (td', st') →
  turn td' = turn td.
Proof.
  unfold BattleSimulator.second_attack.
  destruct (moves _); [by intros [= <- _]|].
  destruct (BattleSimulator.attacking_moves _) as [|m0 ms];
    [by intros [= <- _]|].
  destruct (random.choice (m0 :: ms) (rng st)) as [[move|] r1]; [|discriminate].
  intros H. apply bind_Ok in H
    as ([[[[damage is_critical] status_inflicted] defender] r] & _ & H).
  simpl in H.
  destruct (BattleSimulator.eq_pokemon1 second_pokemon _); by injection H as <- _.
Qed.

Lemma status_phase_turn pkmn td st :
  turn (BattleSimulator.status_phase pkmn td st).1 = turn td.
Proof.
  unfold BattleSimulator.status_phase.
  destruct (_ || _); [|done].
  destruct (StatusEffectManager.process_status_damage _) as [d msg].
  by case_bool_decide.
Qed.

(** A round that does not raise adds one record, numbered by the round. *)
Lemma round_record db st st' broke :
  BattleSimulator.round db st = Ok (st', broke) →
  ∃ td,
    turns_log st' = (turns_log st ++ [td])%list
    ∧ turn td = turn_count st + 1
    ∧ turn_count st' = turn_count st + 1
    ∧ broke = BattleSimulator.fainted st'.
Proof.
  intros Hround.
  pose proof (round_phases _ _ _ _ Hround) as (mid & td0 & Hphases & _ & Hbroke).
  apply phases_same_log in Hphases as [Hlog Hcount]. simpl in Hlog, Hcount.
  revert Hround. unfold BattleSimulator.round.
  destruct (BattleSimulator.turn_order _) as [first_pokemon second_pokemon].
  intros H. apply bind_Ok in H as ([td1 st1] & Hfirst & H).
  assert (Hturn1 : turn td1 = turn_count st + 1).
  { revert Hfirst. unfold BattleSimulator.first_turn.
    pose proof (gate_turn first_pokemon
                  (mkTurn (turn_count (BattleSimulator.begin_round st)) [])
                  (BattleSimulator.begin_round st)) as Hg.
    destruct (BattleSimulator.gate _ _ _) as [[can tdg] stg]. simpl in Hg.
    destruct can; [intros ->%first_attack_turn | intros [= <- _]]; done. }
  assert (Hlog1 : same_log (BattleSimulator.begin_round st) st1)
    by (by apply first_turn_phases, phases_same_log in Hfirst).
  simpl in H. destruct (BattleSimulator.fainted st1).
  - injection H as <- <-. exists td1. destruct Hlog1 as [E1 F1].
    simpl in *. rewrite E1, F1. repeat split; done.
  - apply bind_Ok in H as ([td2 st2] & Hsecond & H). simpl in H.
    assert (Hturn2 : turn td2 = turn_count st + 1).
    { revert Hsecond. unfold BattleSimulator.second_turn.
      pose proof (gate_turn second_pokemon td1 st1) as Hg.
      destruct (BattleSimulator.gate _ _ _) as [[can tdg] stg]. simpl in Hg.
      destruct (can && _ && _);
        [intros ->%second_attack_turn | intros [= <- _]]; congruence. }
    assert (Hlog2 : same_log st1 st2)
      by (by apply second_turn_phases, phases_same_log in Hsecond).
    pose proof (status_phase_turn P1 td2 st2) as Ht3.
    pose proof (phase_step_same_log db _ _ (step_status db P1 td2 st2)) as Hl3.
    destruct (BattleSimulator.status_phase P1 td2 st2) as [td3 st3].
    pose proof (status_phase_turn P2 td3 st3) as Ht4.
    pose proof (phase_step_same_log db _ _ (step_status db P2 td3 st3)) as Hl4.
    destruct (BattleSimulator.status_phase P2 td3 st3) as [td4 st4].
    simpl in *. injection H as <- <-. exists td4.
    destruct Hlog1 as [E1 F1], Hlog2 as [E2 F2], Hl3 as [E3 F3], Hl4 as [E4 F4].
    simpl in *. rewrite E4, E3, E2, E1, F4, F3, F2, F1.
    repeat split; (done || congruence).
Qed.

Lemma numbered_snoc l td :
  numbered l → turn td = Z.of_nat (length l) + 1 → numbered (l ++ [td]).
Proof.
  intros Hl Htd i td' Hi.
  apply lookup_app_Some in Hi as [Hi | [Hge Hi]]; [by apply Hl|].
  apply list_lookup_singleton_Some in Hi as [Hi <-].
  rewrite Htd. lia.
Qed.

(** What the loop keeps, and how it is left. *)
Lemma battle_loop_final db fuel st st' :
  numbered (turns_log st) →
  Z.of_nat (length (turns_log st)) = turn_count st →
  turn_count st ≤ 100 →
  BattleSimulator.battle_loop fuel db st = Some (Ok st') →
  numbered (turns_log st')
  ∧ Z.of_nat (length (turns_log st')) = turn_count st'
  ∧ turn_count st' ≤ 100
  ∧ (BattleSimulator.fainted st' = true ∨ turn_count st' = 100).
Proof.
  revert st. induction fuel as [|fuel IH]; intros st Hnum Hlen Hcap; simpl.
  - destruct (BattleSimulator.loop_condition st) eqn:Hcond; [discriminate|].
    intros [= <-]. repeat split; try done.
    unfold BattleSimulator.loop_condition, BattleSimulator.max_turns in Hcond.
    unfold BattleSimulator.fainted.
    repeat case_bool_decide; simpl in *; try discriminate; auto; right; lia.
  - destruct (BattleSimulator.loop_condition st) eqn:Hcond.
    + unfold BattleSimulator.loop_condition, BattleSimulator.max_turns in Hcond.
      apply andb_prop in Hcond as [_ Hlt%bool_decide_eq_true].
      destruct (BattleSimulator.round db st) as [[st1 broke]|e] eqn:Hround;
        [|discriminate].
      apply round_record in Hround as (td & Hlog & Hturn & Hcount & Hbroke).
      assert (Hnum1 : numbered (turns_log st1)).
      { rewrite Hlog. apply numbered_snoc; [done | lia]. }
      assert (Hlen1 : Z.of_nat (length (turns_log st1)) = turn_count st1).
      { rewrite Hlog, length_app. simpl. lia. }
      destruct broke.
      * intros [= <-]. repeat split; try done; [lia | by left].
      * apply IH; [done | done | lia].
    + intros [= <-]. repeat split; try done.
      unfold BattleSimulator.loop_condition, BattleSimulator.max_turns in Hcond.
      unfold BattleSimulator.fainted.
      repeat case_bool_decide; simpl in *; try discriminate; auto; right; lia.
Qed.

(** X8: the log that [simulate_battle] returns has one record per round run,
    numbered 1, 2, 3, ... in order, and never more than 100. *)
Theorem log_is_numbered_from_one (fuel : nat) (db : PokemonDatabase)
    (p1 p2 : Pokemon) (r : Random) (result : BattleResult) :
  BattleSimulator.simulate_battle fuel db p1 p2 r = Some (Ok result) →
  turn <$> turns result
  = (fun i => Z.of_nat i + 1) <$> seq 0 (length (turns result))
  ∧ (length (turns result) ≤ 100)%nat.
Proof.
  unfold BattleSimulator.simulate_battle, BattleSimulator.run_battle.
  destruct (BattleSimulator.battle_loop fuel db _) as [[st|e]|] eqn:Hloop;
    [|discriminate..].
  intros [= <-]. simpl.
  apply battle_loop_final in Hloop as (Hnum & Hlen & Hcap & _);
    [|by intros i td Hi|done|done].
  split; [|lia].
  apply list_eq. intros i. rewrite !list_lookup_fmap.
  destruct (turns_log st !! i) as [td|] eqn:Hi; simpl.
  - rewrite lookup_seq_lt by (by eapply lookup_lt_Some). simpl.
    by rewrite (Hnum i td Hi).
  - rewrite lookup_seq_ge by (by apply lookup_ge_None). done.
Qed.

Lemma log_is_numbered_from_one_witness :
  ∃ result,
    BattleSimulator.simulate_battle 100 neutral_db normal_attacker fire_attacker
      even_random = Some (Ok result)
    ∧ turn <$> turns result = [1; 2; 3; 4].
Proof.
  destruct (BattleSimulator.simulate_battle 100 neutral_db normal_attacker
              fire_attacker even_random) as [[result|e]|] eqn:Hrun;
    [|vm_compute in Hrun; discriminate..].
  destruct (log_is_numbered_from_one 100 neutral_db normal_attacker
              fire_attacker even_random result Hrun) as [Hnum _].
  exists result. split; [reflexivity|]. rewrite Hnum.
  vm_compute in Hrun. by injection Hrun as <-.
Defined.

(** X9: a battle stops only when a combatant has fainted or the round cap
    is reached: for combatants that enter at 0 HP or more, in the state in
    which the loop is left one of the HP counters is exactly 0 or the log
    has exactly 100 records; and the winner is [None] exactly when both
    counters are 0. *)
Theorem battle_stops_on_faint_or_cap (fuel : nat) (db : PokemonDatabase)
    (p1 p2 : Pokemon) (r : Random) (st : BattleState) :
  0 ≤ hp p1 → 0 ≤ hp p2 →
  BattleSimulator.run_battle fuel db p1 p2 r = Some (Ok st) →
  (current_hp1 st = 0 ∨ current_hp2 st = 0
   ∨ length (turns_log st) = 100%nat)
  ∧ (winner (BattleSimulator.battle_result st) = None
     ↔ current_hp1 st = 0 ∧ current_hp2 st = 0).
Proof.
  intros H1 H2 Hrun.
  assert (Hpos : 0 ≤ current_hp1 st ∧ 0 ≤ current_hp2 st).
  { apply battle_loop_reachable in Hrun.
    eapply (rtc_ind_r (fun st => 0 ≤ current_hp1 st ∧ 0 ≤ current_hp2 st));
      [ | | exact Hrun]; [done|].
    intros mid st' _ Hstep IH. by eapply battle_step_hp. }
  apply battle_loop_final in Hrun as (_ & Hlen & _ & Hexit);
    [|by intros i td Hi|done|done].
  split.
  - destruct Hexit as [Hfaint | Hcap]; [|right; right; lia].
    unfold BattleSimulator.fainted in Hfaint.
    apply orb_prop in Hfaint as [?%bool_decide_eq_true | ?%bool_decide_eq_true];
      [left | right; left]; lia.
  - rewrite battle_result_draw_iff. lia.
Qed.

Lemma battle_stops_on_faint_or_cap_witness :
  ∃ st,
    BattleSimulator.run_battle 100 neutral_db normal_attacker fire_attacker
      even_random = Some (Ok st)
    ∧ length (turns_log st) = 4%nat
    ∧ (current_hp1 st = 0 ∨ current_hp2 st = 0
       ∨ length (turns_log st) = 100%nat).
Proof.
  destruct (BattleSimulator.run_battle 100 neutral_db normal_attacker
              fire_attacker even_random) as [[st|e]|] eqn:Hrun;
    [|vm_compute in Hrun; discriminate..].
  destruct (battle_stops_on_faint_or_cap 100 neutral_db normal_attacker
              fire_attacker even_random st ltac:(done) ltac:(done) Hrun)
    as [Hstop _].
  exists st. split; [reflexivity|]. split; [|exact Hstop].
  vm_compute in Hrun. by injection Hrun as <-.
Defined.

(** ** Conditions and their counters *)

Lemma remove_NoDup_absent (e : StatusEffect) l : NoDup l → e ∉ Py.remove e l.
Proof.
  induction 1 as [|y l Hy Hl IH]; simpl; [apply not_elem_of_nil|].
  case_decide as Heq; [by subst|].
  apply not_elem_of_cons. split; [congruence | done].
Qed.

Lemma sync_remove e p turns' :
  counters_in_sync p →
  (turns' = delete e (status_turns p)
   ∨ (turns' = status_turns p ∧ e ∉ [SLEEP; CONFUSION])) →
  counters_in_sync (set_status p (Py.remove e (status_effects p)) turns').
Proof.
  intros (Hnd & Hkeys & Hheld) Hturns. unfold counters_in_sync. simpl.
  assert (Hsub := remove_sublist e (status_effects p)).
  split; [by eapply sublist_NoDup|]. split.
  - intros s n Hs.
    assert (Hs' : status_turns p !! s = Some n ∧ s ≠ e).
    { destruct Hturns as [-> | [-> He]].
      - apply lookup_delete_Some in Hs as [? ?]. done.
      - split; [done|]. intros ->.
        destruct (Hkeys _ _ Hs) as [_ [[-> _] | [-> _]]];
          apply He; [left | right; left]. }
    destruct Hs' as [Hs' Hne]. destruct (Hkeys _ _ Hs') as [Hin Hrange].
    split; [by apply remove_keeps | done].
  - intros s Hs Hin.
    assert (Hne : s ≠ e).
    { intros ->. by apply (remove_NoDup_absent e (status_effects p)). }
    assert (His : is_Some (status_turns p !! s)).
    { apply Hheld; [done|]. by eapply elem_of_sublist. }
    destruct Hturns as [-> | [-> _]]; [|done].
    by rewrite lookup_delete_ne.
Qed.

Lemma sync_set_counter s n p :
  counters_in_sync p →
  s ∈ status_effects p →
  counter_in_range s n →
  counters_in_sync (set_status p (status_effects p) (<[s := n]> (status_turns p))).
Proof.
  intros (Hnd & Hkeys & Hheld) Hin Hrange. unfold counters_in_sync. simpl.
  split; [done|]. split.
  - intros s' n' Hs'. apply lookup_insert_Some in Hs' as [[<- <-] | [_ Hs']];
      [done | by apply Hkeys].
  - intros s' Hs' Hin'. destruct (decide (s = s')) as [<-|Hne].
    + rewrite lookup_insert_eq. by eexists.
    + rewrite lookup_insert_ne by done. by apply Hheld.
Qed.

Lemma sync_append s p turns' :
  counters_in_sync p →
  s ∉ status_effects p →
  ((turns' = status_turns p ∧ s ∉ [SLEEP; CONFUSION])
   ∨ (∃ n, turns' = <[s := n]> (status_turns p) ∧ counter_in_range s n)) →
  counters_in_sync (set_status p (status_effects p ++ [s]) turns').
Proof.
  intros (Hnd & Hkeys & Hheld) Hnew Hturns. unfold counters_in_sync. simpl.
  split.
  { apply NoDup_app. split; [done|]. split; [|apply NoDup_singleton].
    by intros x Hx ->%list_elem_of_singleton. }
  split.
  - intros s' n' Hs'.
    destruct Hturns as [[-> _] | (n & -> & Hrange)].
    + destruct (Hkeys _ _ Hs') as [Hin ?]. split; [|done].
      apply elem_of_app. by left.
    + apply lookup_insert_Some in Hs' as [[<- <-] | [_ Hs']].
      * split; [|done]. apply elem_of_app. right. left.
      * destruct (Hkeys _ _ Hs') as [Hin ?]. split; [|done].
        apply elem_of_app. by left.
  - intros s' Hs' Hin'.
    apply elem_of_app in Hin' as [Hin' | ->%list_elem_of_singleton].
    + assert (is_Some (status_turns p !! s')) as [n' Hn'] by (by apply Hheld).
      destruct Hturns as [[-> _] | (n & -> & _)]; [by eexists|].
      destruct (decide (s = s')) as [<-|Hne]; [done|].
      rewrite lookup_insert_ne by done. by eexists.
    + destruct Hturns as [[_ Hno] | (n & -> & _)]; [done|].
      rewrite lookup_insert_eq. by eexists.
Qed.

Lemma sync_remove_major p :
  counters_in_sync p → counters_in_sync (StatusEffectManager.remove_major p).
Proof.
  unfold StatusEffectManager.remove_major.
  generalize StatusEffectManager.major_statuses. intros es. revert p.
  induction es as [|e es IH]; intros p Hsync; simpl; [done|].
  apply IH. destruct (Py.contains e (status_effects p)); [|done].
  apply sync_remove; auto.
Qed.

Transparent random.randint.

Lemma randint_in_range a b r :
  a ≤ b → a ≤ (random.randint a b r).1 ≤ b.
Proof.
  intros Hab. unfold random.randint. simpl.
  pose proof (Z.mod_pos_bound (stream r (cursor r)) (b - a + 1)). lia.
Qed.

Opaque random.randint.

Lemma apply_status_effect_sync p status r :
  counters_in_sync p →
  counters_in_sync (StatusEffectManager.apply_status_effect p status r).1.2.
Proof.
  intros Hsync. unfold StatusEffectManager.apply_status_effect.
  unfold Py.contains at 1. case_bool_decide as Hin; [done|].
  set (base := if Py.contains status StatusEffectManager.major_statuses
               then StatusEffectManager.remove_major p else p).
  assert (Hbase : counters_in_sync base).
  { unfold base. destruct (Py.contains status _);
      [by apply sync_remove_major | done]. }
  assert (Hnew : status ∉ status_effects base).
  { unfold base. destruct (Py.contains status _); [|done].
    intros ?. apply Hin. eapply elem_of_sublist; [done|].
    apply remove_major_sublist. }
  clearbody base.
  destruct status; simpl.
  1-3,5: apply (sync_append _ base); [done | done | left; split; [done|]];
         rewrite !elem_of_cons, elem_of_nil; by intros [?|[?|[]]].
  - pose proof (randint_in_range 1 3 r ltac:(lia)) as Hn.
    destruct (random.randint 1 3 r) as [n r0]. simpl in *.
    apply (sync_append _ base); [done | done | right].
    exists n. split; [done|]. left. split; [done | lia].
  - pose proof (randint_in_range 2 5 r ltac:(lia)) as Hn.
    destruct (random.randint 2 5 r) as [n r0]. simpl in *.
    apply (sync_append _ base); [done | done | right].
    exists n. split; [done|]. right. split; [done | lia].
Qed.

Lemma counter_lookup p s :
  counters_in_sync p →
  default 0 (status_turns p !! s) > 0 →
  ∃ n, status_turns p !! s = Some n
       ∧ default 0 (status_turns p !! s) = n
       ∧ s ∈ status_effects p ∧ counter_in_range s n.
Proof.
  intros (_ & Hkeys & _) Hpos.
  destruct (status_turns p !! s) as [n|] eqn:Hn; simpl in *; [|lia].
  destruct (Hkeys _ _ Hn). eauto.
Qed.

Lemma sync_decrement p s n :
  counters_in_sync p →
  status_turns p !! s = Some n →
  ¬ n - 1 ≤ 0 →
  counters_in_sync
    (set_status p (status_effects p) (<[s := n - 1]> (status_turns p))).
Proof.
  intros Hsync Hn Hpos.
  destruct Hsync as (Hnd & Hkeys & Hheld).
  destruct (Hkeys _ _ Hn) as [Hin Hrange].
  apply sync_set_counter; [done | done |].
  destruct Hrange as [[-> ?] | [-> ?]]; [left | right]; split; (done || lia).
Qed.

Lemma can_move_loop_sync l p messages r :
  counters_in_sync p →
  counters_in_sync (StatusEffectManager.can_move_loop l p messages r).1.2.
Proof.
  revert p messages r.
  induction l as [|e l IH]; intros p messages r Hsync; simpl; [done|].
  destruct e; simpl; try by apply IH.
  - destruct (random.random r) as [x r'].
    destruct (PrimFloat.ltb x 0.25); simpl; [done | by apply IH].
  - case_bool_decide as Hpos; [|by apply IH].
    apply counter_lookup in Hpos as (n & Hn & -> & _); [|done].
    case_bool_decide; simpl.
    + apply sync_remove; auto.
    + by apply sync_decrement.
  - destruct (random.random r) as [x r'].
    destruct (PrimFloat.ltb x 0.2); simpl; [|done].
    apply sync_remove; [done|]. right. split; [done|].
    rewrite !elem_of_cons, elem_of_nil. by intros [?|[?|[]]].
  - case_bool_decide as Hpos; [|by apply IH].
    apply counter_lookup in Hpos as (n & Hn & -> & _); [|done].
    case_bool_decide; simpl.
    + apply IH. apply sync_remove; auto.
    + destruct (random.random r) as [x r'].
      destruct (PrimFloat.ltb x 0.5); simpl;
        [|apply IH]; by apply sync_decrement.
Qed.

Lemma gate_exact who td st :
  (BattleSimulator.gate who td st).2
  = BattleSimulator.set_rng
      (StatusEffectManager.can_move
         (BattleSimulator.get_pokemon who st) (rng st)).2
      (BattleSimulator.set_pokemon who
         (StatusEffectManager.can_move
            (BattleSimulator.get_pokemon who st) (rng st)).1.2 st).
Proof.
  unfold BattleSimulator.gate.
  by destruct (StatusEffectManager.can_move _ _) as [[[can msg] p] r].
Qed.

(** Any property of a combatant that [can_move] and [apply_status_effect]
    keep holds of both combatants throughout a battle. *)
Section PokemonInvariant.

Variable PInv : Pokemon → Prop.

Hypothesis PInv_can_move : ∀ p r,
  PInv p → PInv (StatusEffectManager.can_move p r).1.2.

Hypothesis PInv_apply : ∀ p status r,
  PInv p → PInv (StatusEffectManager.apply_status_effect p status r).1.2.

Let both (st : BattleState) : Prop := PInv (pokemon1 st) ∧ PInv (pokemon2 st).

Lemma battle_step_keeps_both db st st' :
  battle_step db st st' → both st → both st'.
Proof.
  assert (Hattack : ∀ s0 s1 attacker target,
            attack_applied db attacker target s0 s1 → both s0 → both s1).
  { intros s0 s1 attacker target
      (move & r0 & damage & crit & inflicted & defender & r & Hcalc & H) [H1 H2].
    assert (Hdef : PInv defender).
    { apply calculate_damage_defender in Hcalc as [-> | (status & r1 & ->)].
      - by destruct target.
      - apply PInv_apply. by destruct target. }
    cbv zeta in H. destruct H as [-> | ->]; destruct target; by split. }
  intros [st0 | st0 st1 Hphase | td st0] Hboth; [done| |done].
  destruct Hphase as [who td s0 | f s td s0 td' s1 H | f s td s0 td' s1 H
                     | pkmn td s0].
  - rewrite gate_exact. destruct Hboth as [H1 H2].
    destruct who; split; simpl; auto.
  - apply first_attack_inv in H as [-> | [target H]]; [done | by eapply Hattack].
  - apply second_attack_inv in H as [-> | H]; [done | by eapply Hattack].
  - by destruct (status_phase_cases pkmn td s0) as [-> | [[d ->] | [d ->]]].
Qed.

Lemma reachable_keeps_both db st st' :
  reachable db st st' → both st → both st'.
Proof.
  induction 1 as [|st mid st' Hstep _ IH]; [done|].
  intros Hboth. apply IH. by eapply battle_step_keeps_both.
Qed.

End PokemonInvariant.

(** X10: the list of conditions and the dict of counters never drift apart.
    For combatants that enter the battle with the two in agreement (no
    condition at all, for instance), at every point of the battle no
    condition is listed twice, every counter belongs to a listed sleep (1 to
    3) or confusion (1 to 5), and a listed sleep or confusion has a
    counter. *)
Theorem counters_stay_in_sync (db : PokemonDatabase) (p1 p2 : Pokemon)
    (r : Random) (st : BattleState) :
  counters_in_sync p1 → counters_in_sync p2 →
  reachable db (BattleSimulator.initial_state p1 p2 r) st →
  counters_in_sync (pokemon1 st) ∧ counters_in_sync (pokemon2 st).
Proof.
  intros H1 H2 Hreach.
  apply (reachable_keeps_both counters_in_sync) in Hreach; [done| | |done].
  - intros p r0. apply can_move_loop_sync.
  - apply apply_status_effect_sync.
Qed.

Lemma fresh_in_sync p :
  status_effects p = [] → status_turns p = ∅ → counters_in_sync p.
Proof.
  intros Hl Ht. unfold counters_in_sync. rewrite Hl, Ht.
  split; [apply NoDup_nil_2|]. split.
  - intros s n Hs. by rewrite lookup_empty in Hs.
  - intros s _ Hin. by apply elem_of_nil in Hin.
Qed.

Lemma counters_stay_in_sync_witness :
  ∃ st,
    BattleSimulator.run_battle 100 neutral_db inflictor fire_attacker
      alternating_random = Some (Ok st)
    ∧ status_turns (pokemon2 st) !! SLEEP = Some 2
    ∧ counters_in_sync (pokemon2 st).
Proof.
  destruct (BattleSimulator.run_battle 100 neutral_db inflictor fire_attacker
              alternating_random) as [[st|e]|] eqn:Hrun;
    [|vm_compute in Hrun; discriminate..].
  pose proof (battle_loop_reachable _ _ _ _ Hrun) as Hreach.
  destruct (counters_stay_in_sync neutral_db inflictor fire_attacker
              alternating_random st
              (fresh_in_sync inflictor eq_refl eq_refl)
              (fresh_in_sync fire_attacker eq_refl eq_refl) Hreach)
    as [_ Hsync].
  exists st. split; [reflexivity|]. split; [|exact Hsync].
  vm_compute in Hrun. by injection Hrun as <-.
Defined.

Lemma two_majors p x y :
  status_ok p →
  x ∈ StatusEffectManager.major_statuses →
  y ∈ StatusEffectManager.major_statuses →
  x ∈ status_effects p → y ∈ status_effects p → x = y.
Proof.
  unfold status_ok. intros Hok Hx Hy Hinx Hiny.
  assert (Hmx : x ∈ majors (status_effects p)) by (by apply list_elem_of_filter).
  assert (Hmy : y ∈ majors (status_effects p)) by (by apply list_elem_of_filter).
  destruct (majors (status_effects p)) as [|m [|m' ms]]; simpl in Hok; [| |lia].
  - by apply elem_of_nil in Hmx.
  - apply list_elem_of_singleton in Hmx, Hmy. congruence.
Qed.

Lemma status_ok_sublist p effects turns :
  status_ok p → sublist effects (status_effects p) →
  status_ok (set_status p effects turns).
Proof.
  unfold status_ok. simpl. intros Hok Hsub%majors_sublist. lia.
Qed.

Lemma can_move_loop_awake l p messages r :
  counters_in_sync p →
  status_ok p →
  (∀ s, s ∈ l → s ≠ CONFUSION → s ∈ status_effects p) →
  (∀ s, s ∈ status_effects p → s ∈ [SLEEP; FREEZE] → s ∈ l) →
  (StatusEffectManager.can_move_loop l p messages r).1.1.1 = true →
  ∀ s, s ∈ [SLEEP; FREEZE] →
       s ∉ status_effects (StatusEffectManager.can_move_loop l p messages r).1.2.
Proof.
  assert (Hmaj : ∀ s, s ∈ [SLEEP; FREEZE] →
            s ∈ StatusEffectManager.major_statuses ∧ s ≠ CONFUSION).
  { intros s. unfold StatusEffectManager.major_statuses.
    rewrite !elem_of_cons, elem_of_nil.
    intros [->|[->|[]]]; (split; [auto 10 | done]). }
  assert (Hsleep : SLEEP ∈ [SLEEP; FREEZE]) by left.
  assert (Hfreeze : FREEZE ∈ [SLEEP; FREEZE]) by (right; left).
  revert p messages r.
  induction l as [|e l IH]; intros p messages r Hsync Hok Hcopy Hleft; simpl.
  { intros _ s Hs Hin. apply (Hleft s Hin) in Hs. by apply elem_of_nil in Hs. }
  assert (Hcopy' : ∀ s, s ∈ l → s ≠ CONFUSION → s ∈ status_effects p).
  { intros s Hs. apply Hcopy. by right. }
  assert (Hskip : e ∉ [SLEEP; FREEZE] →
            ∀ s, s ∈ status_effects p → s ∈ [SLEEP; FREEZE] → s ∈ l).
  { intros He s Hin Hs.
    pose proof (Hleft s Hin Hs) as [->|Hl]%elem_of_cons; [done | exact Hl]. }
  assert (Hother : ∀ e', e' ∈ [SLEEP; FREEZE] → e' ≠ e → e ∈ status_effects p →
            e ∈ StatusEffectManager.major_statuses →
            e' ∉ status_effects p).
  { intros e' He' Hne He Hemaj Hin. apply Hne.
    apply (two_majors p); auto. by apply Hmaj. }
  destruct e; simpl.
  - apply IH; auto. apply Hskip. rewrite !elem_of_cons, elem_of_nil.
    by intros [?|[?|[]]].
  - apply IH; auto. apply Hskip. rewrite !elem_of_cons, elem_of_nil.
    by intros [?|[?|[]]].
  - destruct (random.random r) as [x r'].
    destruct (PrimFloat.ltb x 0.25); simpl; [discriminate|].
    apply IH; auto. apply Hskip. rewrite !elem_of_cons, elem_of_nil.
    by intros [?|[?|[]]].
  - assert (Hin : SLEEP ∈ status_effects p) by (apply Hcopy; [left | done]).
    case_bool_decide as Hpos.
    + case_bool_decide; simpl; [|discriminate].
      intros _ s Hs Hins.
      assert (Hins' : s ∈ status_effects p).
      { eapply elem_of_sublist; [exact Hins | apply remove_sublist]. }
      destruct (decide (s = SLEEP)) as [->|Hne].
      * destruct Hsync as (Hnd & _).
        by apply (remove_NoDup_absent SLEEP (status_effects p)).
      * apply (Hother s); auto. unfold StatusEffectManager.major_statuses.
        rewrite !elem_of_cons. auto.
    + exfalso. destruct Hsync as (_ & Hkeys & Hheld).
      destruct (Hheld SLEEP) as [n Hn]; [left | done |].
      rewrite Hn in Hpos. simpl in Hpos.
      destruct (Hkeys _ _ Hn) as [_ [[_ ?] | [? _]]]; [lia | done].
  - assert (Hin : FREEZE ∈ status_effects p) by (apply Hcopy; [left | done]).
    destruct (random.random r) as [x r'].
    destruct (PrimFloat.ltb x 0.2); simpl; [|discriminate].
    intros _ s Hs Hins.
    assert (Hins' : s ∈ status_effects p).
    { eapply elem_of_sublist; [exact Hins | apply remove_sublist]. }
    destruct (decide (s = FREEZE)) as [->|Hne].
    * destruct Hsync as (Hnd & _).
      by apply (remove_NoDup_absent FREEZE (status_effects p)).
    * apply (Hother s); auto. unfold StatusEffectManager.major_statuses.
      rewrite !elem_of_cons. auto 10.
  - assert (Hskip' : ∀ s, s ∈ status_effects p → s ∈ [SLEEP; FREEZE] → s ∈ l).
    { apply Hskip. rewrite !elem_of_cons, elem_of_nil. by intros [?|[?|[]]]. }
    case_bool_decide as Hpos; [|by apply IH].
    apply counter_lookup in Hpos as (n & Hn & -> & _); [|done].
    case_bool_decide; simpl.
    + apply IH.
      * apply sync_remove; auto.
      * apply status_ok_sublist; [done | apply remove_sublist].
      * intros s Hs Hne. simpl. apply remove_keeps; auto.
      * intros s Hs Hsf. simpl in Hs. apply Hskip'; [|done].
        eapply elem_of_sublist; [exact Hs | apply remove_sublist].
    + destruct (random.random r) as [x r'].
      destruct (PrimFloat.ltb x 0.5); simpl; [discriminate|].
      apply IH; auto. by apply sync_decrement.
Qed.

(** X11: a combatant that [can_move] lets act is neither asleep nor frozen
    after the call, provided its conditions and counters agree and it holds
    at most one major condition (both hold throughout a battle). *)
Theorem allowed_to_move_means_awake (p : Pokemon) (r : Random) :
  counters_in_sync p → status_ok p →
  (StatusEffectManager.can_move p r).1.1.1 = true →
  (SLEEP ∉ status_effects (StatusEffectManager.can_move p r).1.2)
  ∧ (FREEZE ∉ status_effects (StatusEffectManager.can_move p r).1.2).
Proof.
  intros Hsync Hok Hcan. unfold StatusEffectManager.can_move in *.
  split; apply can_move_loop_awake; auto; (left || (right; left)).
Qed.

Lemma allowed_to_move_means_awake_witness :
  let confused := set_status fire_attacker [CONFUSION] (<[CONFUSION := 3]> ∅) in
  let sleeper := set_status confused [CONFUSION; SLEEP]
                   (<[SLEEP := 1]> (status_turns confused)) in
  (StatusEffectManager.can_move sleeper even_random).1.1
  = (true, "b woke up!")
  ∧ (SLEEP ∉ status_effects
               (StatusEffectManager.can_move sleeper even_random).1.2).
Proof.
  cbv zeta. split; [vm_compute; reflexivity|].
  assert (Hconfused : counters_in_sync
            (set_status fire_attacker [CONFUSION] (<[CONFUSION := 3]> ∅))).
  { apply (sync_append CONFUSION fire_attacker).
    - by apply fresh_in_sync.
    - apply not_elem_of_nil.
    - right. exists 3. split; [done|]. right. split; [done|lia]. }
  apply allowed_to_move_means_awake.
  - apply (sync_append SLEEP _ _ Hconfused).
    + simpl. intros ?%list_elem_of_singleton. discriminate.
    + right. exists 1. split; [done|]. left. split; [done|lia].
  - unfold status_ok. vm_compute. lia.
  - vm_compute. reflexivity.
Defined.

(** ** How long sleep lasts *)

Lemma can_move_asleep p r n :
  status_effects p = [SLEEP] →
  status_turns p !! SLEEP = Some n →
  1 ≤ n →
  StatusEffectManager.can_move p r
  = if bool_decide (n - 1 ≤ 0)
    then ((true, name p +:+ " woke up!"),
          set_status p [] (delete SLEEP (status_turns p)), r)
    else ((false, name p +:+ " is fast asleep!"),
          set_status p [SLEEP] (<[SLEEP := n - 1]> (status_turns p)), r).
Proof.
  intros Hl Hn Hpos. unfold StatusEffectManager.can_move.
  rewrite Hl. simpl. rewrite Hn. simpl.
  rewrite bool_decide_eq_true_2 by lia.
  case_bool_decide; rewrite Hl; simpl; done.
Qed.

(** X12: a combatant whose only condition is sleep, with counter [n + 1], is
    blocked by exactly [n] calls of [can_move] and woken by the next one,
    which lets it act; no draw is consumed.  A counter drawn as 1 blocks no
    turn at all. *)
Theorem sleep_blocks_counter_minus_one (n : nat) (p : Pokemon) (r : Random) :
  status_effects p = [SLEEP] →
  status_turns p !! SLEEP = Some (Z.of_nat (S n)) →
  can_move_repeatedly (S n) p r
  = ((replicate n (false, name p +:+ " is fast asleep!")
      ++ [(true, name p +:+ " woke up!")])%list,
     set_status p [] (delete SLEEP (status_turns p)), r).
Proof.
  revert p. induction n as [|n IH]; intros p Hl Hn.
  - simpl. rewrite (can_move_asleep p r 1) by done. simpl. done.
  - change (can_move_repeatedly (S (S n)) p r)
      with (let '(result, p', r') := StatusEffectManager.can_move p r in
            let '(results, p'', r'') := can_move_repeatedly (S n) p' r' in
            (result :: results, p'', r'')).
    rewrite (can_move_asleep p r (Z.of_nat (S (S n)))) by (done || lia).
    rewrite bool_decide_eq_false_2 by lia.
    rewrite IH.
    + simpl. do 2 f_equal. f_equal. apply map_eq. intros s.
      destruct (decide (s = SLEEP)) as [->|Hne].
      * by rewrite !lookup_delete_eq.
      * by rewrite !lookup_delete_ne, lookup_insert_ne.
    + done.
    + simpl. rewrite lookup_insert_eq. f_equal. lia.
Qed.

Lemma sleep_blocks_counter_minus_one_witness :
  can_move_repeatedly 3
    (set_status fire_attacker [SLEEP] ({[SLEEP := 3]} : gmap StatusEffect Z))
    even_random
  = ([(false, "b is fast asleep!"); (false, "b is fast asleep!");
      (true, "b woke up!")],
     set_status fire_attacker [] ∅, even_random).
Proof.
  assert (Hcounter :
    status_turns
      (set_status fire_attacker [SLEEP] ({[SLEEP := 3]} : gmap StatusEffect Z))
      !! SLEEP = Some (Z.of_nat 3)) by (vm_compute; reflexivity).
  rewrite (sleep_blocks_counter_minus_one 2
             (set_status fire_attacker [SLEEP]
                ({[SLEEP := 3]} : gmap StatusEffect Z))
             even_random eq_refl Hcounter).
  vm_compute. reflexivity.
Defined.

(** ** Level-50 scaling *)

Lemma scaling_table :
  Forall (fun b => calculate_hp b = Ok (b + 60) ∧ calculate_stat b = Ok (b + 5))
    (seqZ 0 256).
Proof.
  apply (bool_decide_unpack
           (Forall (fun b => calculate_hp b = Ok (b + 60)
                             ∧ calculate_stat b = Ok (b + 5)) (seqZ 0 256))).
  vm_compute. exact I.
Qed.

Lemma scaling_in_range b :
  0 ≤ b ≤ 255 →
  calculate_hp b = Ok (b + 60) ∧ calculate_stat b = Ok (b + 5).
Proof.
  intros Hb. pose proof scaling_table as Htable.
  rewrite Forall_forall in Htable. apply Htable.
  apply elem_of_seqZ. lia.
Qed.

(** X13: for provider data whose base stats lie between 0 and 255 (missing
    ones take their defaults, 35 for HP and 50 otherwise),
    [prepare_pokemon_for_battle] raises nothing and scales every stat
    exactly: HP is the base plus 60, each other stat the base plus 5; the
    combatant starts at full HP with no condition and no counter. *)
Theorem prepare_scales_base_stats (data : PokemonData) :
  (∀ k v, stats data !! k = Some v → 0 ≤ v ≤ 255) →
  ∃ p,
    prepare_pokemon_for_battle data = Ok p
    ∧ name p = identifier data
    ∧ hp p = default 35 (stats data !! "hp") + 60
    ∧ max_hp p = hp p
    ∧ attack p = default 50 (stats data !! "attack") + 5
    ∧ defense p = default 50 (stats data !! "defense") + 5
    ∧ special_attack p = default 50 (stats data !! "special-attack") + 5
    ∧ special_defense p = default 50 (stats data !! "special-defense") + 5
    ∧ speed p = default 50 (stats data !! "speed") + 5
    ∧ types p = data_types data
    ∧ status_effects p = []
    ∧ status_turns p = ∅.
Proof.
  intros Hrange.
  assert (Hdef : ∀ k d, 0 ≤ d ≤ 255 → 0 ≤ default d (stats data !! k) ≤ 255).
  { intros k d Hd. destruct (stats data !! k) as [v|] eqn:Hk; simpl; [|done].
    by eapply Hrange. }
  unfold prepare_pokemon_for_battle.
  rewrite (proj1 (scaling_in_range _ (Hdef "hp" 35 ltac:(lia)))).
  rewrite (proj2 (scaling_in_range _ (Hdef "attack" 50 ltac:(lia)))).
  rewrite (proj2 (scaling_in_range _ (Hdef "defense" 50 ltac:(lia)))).
  rewrite (proj2 (scaling_in_range _ (Hdef "special-attack" 50 ltac:(lia)))).
  rewrite (proj2 (scaling_in_range _ (Hdef "special-defense" 50 ltac:(lia)))).
  rewrite (proj2 (scaling_in_range _ (Hdef "speed" 50 ltac:(lia)))).
  simpl. eexists. split; [reflexivity|]. simpl. repeat split; reflexivity.
Qed.

Lemma prepare_scales_base_stats_witness :
  ∃ p,
    prepare_pokemon_for_battle pikachu_data = Ok p
    ∧ hp p = 95 ∧ attack p = 60 ∧ special_attack p = 55 ∧ speed p = 95.
Proof.
  destruct (prepare_scales_base_stats pikachu_data)
    as (p & Hp & _ & Hhp & _ & Hatk & _ & Hspa & _ & Hspe & _).
  - intros k v Hk.
    assert (Hall : map_Forall (fun _ v => 0 ≤ v ≤ 255) (stats pikachu_data)).
    { apply (bool_decide_unpack
               (map_Forall (fun _ v => 0 ≤ v ≤ 255) (stats pikachu_data))).
      vm_compute. exact I. }
    exact (Hall k v Hk).
  - exists p. split; [exact Hp|]. rewrite Hhp, Hatk, Hspa, Hspe.
    vm_compute. repeat split; reflexivity.
Defined.

(** ** Which counter an attack is taken from *)

Transparent random.choice.

Lemma choice_elem_of {A : Type} (seq : list A) r x r' :
  random.choice seq r = (Some x, r') → x ∈ seq.
Proof.
  unfold random.choice. simpl. intros [= Hx _].
  by eapply list_elem_of_lookup_2.
Qed.

Opaque random.choice.

Lemma attacking_moves_subset p move :
  move ∈ BattleSimulator.attacking_moves p → move ∈ moves p.
Proof.
  unfold BattleSimulator.attacking_moves.
  by intros [_ ?]%list_elem_of_filter.
Qed.

(** The two ways [first_attack] returns: nothing to attack with, or an
    attack resolved with one of the attacker's moves and its damage taken
    from the counter that line 289 selects. *)
Lemma first_attack_cases db first_pokemon second_pokemon td st td' st' :
  BattleSimulator.first_attack db first_pokemon second_pokemon td st
  = Ok (td', st') →
  st' = st
  ∨ ∃ move r0 damage is_critical status_inflicted defender r,
      move ∈ moves (BattleSimulator.get_pokemon first_pokemon st)
      ∧ let target := if BattleSimulator.eq_pokemon1 first_pokemon st
                      then second_pokemon else P1 in
        BattleSimulator._calculate_damage db
          (BattleSimulator.get_pokemon first_pokemon st)
          (BattleSimulator.get_pokemon target st) move r0
        = Ok ((damage, is_critical, status_inflicted), defender, r)
        ∧ let st1 := BattleSimulator.set_rng r
                       (BattleSimulator.set_pokemon target defender st) in
          st' = if BattleSimulator.eq_pokemon1 first_pokemon st1
                then BattleSimulator.set_hp2
                       (Z.max 0 (current_hp2 st1 - damage)) st1
                else BattleSimulator.set_hp1
                       (Z.max 0 (current_hp1 st1 - damage)) st1.
Proof.
  unfold BattleSimulator.first_attack.
  destruct (moves _) eqn:Hmoves; [intros [= _ <-]; by left|].
  rewrite <- Hmoves. clear Hmoves.
  destruct (BattleSimulator.attacking_moves _) as [|m0 ms] eqn:Hcand;
    [intros [= _ <-]; by left|].
  destruct (random.choice (m0 :: ms) (rng st)) as [discarded r0].
  destruct (random.choice (m0 :: ms) r0) as [[move|] r1] eqn:Hchoice;
    [|discriminate].
  intros H. right.
  apply bind_Ok in H
    as ([[[[damage is_critical] status_inflicted] defender] r] & Hcalc & H).
  simpl in H.
  exists move, r1, damage, is_critical, status_inflicted, defender, r.
  split.
  { apply attacking_moves_subset. rewrite Hcand. by eapply choice_elem_of. }
  cbv zeta. split; [exact Hcalc|].
  destruct (BattleSimulator.eq_pokemon1 first_pokemon
              (BattleSimulator.set_rng r _)); by injection H as _ <-.
Qed.

Lemma second_attack_cases db first_pokemon second_pokemon td st td' st' :
  BattleSimulator.second_attack db first_pokemon second_pokemon td st
  = Ok (td', st') →
  st' = st
  ∨ ∃ move r0 damage is_critical status_inflicted defender r,
      move ∈ moves (BattleSimulator.get_pokemon second_pokemon st)
      ∧ BattleSimulator._calculate_damage db
          (BattleSimulator.get_pokemon second_pokemon st)
          (BattleSimulator.get_pokemon first_pokemon st) move r0
        = Ok ((damage, is_critical, status_inflicted), defender, r)
      ∧ let st1 := BattleSimulator.set_rng r
                     (BattleSimulator.set_pokemon first_pokemon defender st) in
        st' = if BattleSimulator.eq_pokemon1 second_pokemon st1
              then BattleSimulator.set_hp2
                     (Z.max 0 (current_hp2 st1 - damage)) st1
              else BattleSimulator.set_hp1
                     (Z.max 0 (current_hp1 st1 - damage)) st1.
Proof.
  unfold BattleSimulator.second_attack.
  destruct (moves _) eqn:Hmoves; [intros [= _ <-]; by left|].
  rewrite <- Hmoves. clear Hmoves.
  destruct (BattleSimulator.attacking_moves _) as [|m0 ms] eqn:Hcand;
    [intros [= _ <-]; by left|].
  destruct (random.choice (m0 :: ms) (rng st)) as [[move|] r1] eqn:Hchoice;
    [|discriminate].
  intros H. right.
  apply bind_Ok in H
    as ([[[[damage is_critical] status_inflicted] defender] r] & Hcalc & H).
  simpl in H.
  exists move, r1, damage, is_critical, status_inflicted, defender, r.
  split.
  { apply attacking_moves_subset. rewrite Hcand. by eapply choice_elem_of. }
  split; [exact Hcalc|]. cbv zeta.
  destruct (BattleSimulator.eq_pokemon1 second_pokemon
              (BattleSimulator.set_rng r _)); by injection H as _ <-.
Qed.

Lemma calculate_damage_floor db attacker defender move r
    damage is_critical status_inflicted defender' r' :
  move_power move > 0 →
  BattleSimulator._calculate_damage db attacker defender move r
  = Ok ((damage, is_critical, status_inflicted), defender', r') →
  1 ≤ damage.
Proof.
  intros Hpower. unfold BattleSimulator._calculate_damage.
  rewrite !bool_decide_eq_false_2 by lia. simpl orb. cbv iota.
  intros (base & _ & H)%bind_Ok.
  destruct (random.random r) as [x r1].
  apply bind_Ok in H as (crit & _ & H).
  destruct (random.uniform _ _ r1) as [factor r2].
  apply bind_Ok in H as (d & _ & H).
  destruct (BattleSimulator._get_move_status_chance _) as [status_effect chance].
  destruct (match status_effect with Some _ => _ | None => _ end)
    as [[inflicted q] r3].
  injection H as <- _ _ _ _. lia.
Qed.

Lemma no_attacking_moves_no_positive_power (p : Pokemon) :
  BattleSimulator.attacking_moves p = [] →
  Forall (fun m => move_power m ≤ 0) (moves p).
Proof.
  unfold BattleSimulator.attacking_moves. intros Hnone.
  apply Forall_forall. intros m Hm.
  destruct (decide (move_power m > 0)) as [Hpower|]; [|lia].
  assert (m ∈ filter (fun m => move_power m > 0) (moves p)) as Hin
    by (by apply list_elem_of_filter).
  rewrite Hnone in Hin. by apply elem_of_nil in Hin.
Qed.

(** [first_attack] and [second_attack] with what they tried: a forfeit of an
    attacker without a move of positive power, or an attack with one of its
    moves of positive power. *)
Lemma first_attack_resolved db first_pokemon second_pokemon td st td' st' :
  BattleSimulator.first_attack db first_pokemon second_pokemon td st
  = Ok (td', st') →
  (st' = st
   ∧ BattleSimulator.attacking_moves
       (BattleSimulator.get_pokemon first_pokemon st) = [])
  ∨ ∃ move r0 damage is_critical status_inflicted defender r,
      move ∈ BattleSimulator.attacking_moves
               (BattleSimulator.get_pokemon first_pokemon st)
      ∧ let target := if BattleSimulator.eq_pokemon1 first_pokemon st
                      then second_pokemon else P1 in
        BattleSimulator._calculate_damage db
          (BattleSimulator.get_pokemon first_pokemon st)
          (BattleSimulator.get_pokemon target st) move r0
        = Ok ((damage, is_critical, status_inflicted), defender, r)
        ∧ let st1 := BattleSimulator.set_rng r
                       (BattleSimulator.set_pokemon target defender st) in
          st' = if BattleSimulator.eq_pokemon1 first_pokemon st1
                then BattleSimulator.set_hp2
                       (Z.max 0 (current_hp2 st1 - damage)) st1
                else BattleSimulator.set_hp1
                       (Z.max 0 (current_hp1 st1 - damage)) st1.
Proof.
  unfold BattleSimulator.first_attack.
  destruct (moves _) eqn:Hmoves.
  { intros [= _ <-]. left. split; [done|].
    unfold BattleSimulator.attacking_moves. by rewrite Hmoves. }
  clear Hmoves.
  destruct (BattleSimulator.attacking_moves _) as [|m0 ms] eqn:Hcand;
    [intros [= _ <-]; by left|].
  destruct (random.choice (m0 :: ms) (rng st)) as [discarded r0].
  destruct (random.choice (m0 :: ms) r0) as [[move|] r1] eqn:Hchoice;
    [|discriminate].
  intros H. right.
  apply bind_Ok in H
    as ([[[[damage is_critical] status_inflicted] defender] r] & Hcalc & H).
  simpl in H.
  exists move, r1, damage, is_critical, status_inflicted, defender, r.
  split; [by eapply choice_elem_of|].
  cbv zeta. split; [exact Hcalc|].
  destruct (BattleSimulator.eq_pokemon1 first_pokemon
              (BattleSimulator.set_rng r _)); by injection H as _ <-.
Qed.

Lemma second_attack_resolved db first_pokemon second_pokemon td st td' st' :
  BattleSimulator.second_attack db first_pokemon second_pokemon td st
  = Ok (td', st') →
  (st' = st
   ∧ BattleSimulator.attacking_moves
       (BattleSimulator.get_pokemon second_pokemon st) = [])
  ∨ ∃ move r0 damage is_critical status_inflicted defender r,
      move ∈ BattleSimulator.attacking_moves
               (BattleSimulator.get_pokemon second_pokemon st)
      ∧ BattleSimulator._calculate_damage db
          (BattleSimulator.get_pokemon second_pokemon st)
          (BattleSimulator.get_pokemon first_pokemon st) move r0
        = Ok ((damage, is_critical, status_inflicted), defender, r)
      ∧ let st1 := BattleSimulator.set_rng r
                     (BattleSimulator.set_pokemon first_pokemon defender st) in
        st' = if BattleSimulator.eq_pokemon1 second_pokemon st1
              then BattleSimulator.set_hp2
                     (Z.max 0 (current_hp2 st1 - damage)) st1
              else BattleSimulator.set_hp1
                     (Z.max 0 (current_hp1 st1 - damage)) st1.
Proof.
  unfold BattleSimulator.second_attack.
  destruct (moves _) eqn:Hmoves.
  { intros [= _ <-]. left. split; [done|].
    unfold BattleSimulator.attacking_moves. by rewrite Hmoves. }
  clear Hmoves.
  destruct (BattleSimulator.attacking_moves _) as [|m0 ms] eqn:Hcand;
    [intros [= _ <-]; by left|].
  destruct (random.choice (m0 :: ms) (rng st)) as [[move|] r1] eqn:Hchoice;
    [|discriminate].
  intros H. right.
  apply bind_Ok in H
    as ([[[[damage is_critical] status_inflicted] defender] r] & Hcalc & H).
  simpl in H.
  exists move, r1, damage, is_critical, status_inflicted, defender, r.
  split; [by eapply choice_elem_of|].
  split; [exact Hcalc|]. cbv zeta.
  destruct (BattleSimulator.eq_pokemon1 second_pokemon
              (BattleSimulator.set_rng r _)); by injection H as _ <-.
Qed.

(** X14: an attack of a combatant on the other one, as first or as second of
    the round, either is forfeited (the attacker has no move of positive
    power, and nothing changes) or is resolved by [_calculate_damage] with
    one of the attacker's moves of positive power against the other
    combatant, whose conditions it may change, for a damage of at least 1.
    As long as the two [Pokemon] objects differ by value after the attack,
    that damage is taken from the HP counter of the other combatant, which
    drops to [max 0 (counter - damage)], and the attacker's own counter is
    unchanged.  When they are equal by value, [== pokemon1] holds for both
    and the damage is taken from [current_hp2], whoever attacks, while
    [current_hp1] is unchanged. *)
Theorem who_takes_the_damage (db : PokemonDatabase) (who : Side)
    (td td' : TurnRecord) (st st' : BattleState) :
  BattleSimulator.first_attack db who (opponent who) td st = Ok (td', st')
  ∨ BattleSimulator.second_attack db (opponent who) who td st = Ok (td', st') →
  (st' = st
   ∧ Forall (fun m => move_power m ≤ 0)
       (moves (BattleSimulator.get_pokemon who st)))
  ∨ ∃ move r0 damage is_critical status_inflicted defender r,
      move ∈ moves (BattleSimulator.get_pokemon who st)
      ∧ move_power move > 0
      ∧ BattleSimulator._calculate_damage db
          (BattleSimulator.get_pokemon who st)
          (BattleSimulator.get_pokemon (opponent who) st) move r0
        = Ok ((damage, is_critical, status_inflicted), defender, r)
      ∧ 1 ≤ damage
      ∧ BattleSimulator.get_pokemon (opponent who) st' = defender
      ∧ BattleSimulator.get_pokemon who st'
        = BattleSimulator.get_pokemon who st
      ∧ if bool_decide (pokemon2 st' = pokemon1 st')
        then current_hp1 st' = current_hp1 st
             ∧ current_hp2 st' = Z.max 0 (current_hp2 st - damage)
        else current_hp who st' = current_hp who st
             ∧ current_hp (opponent who) st'
               = Z.max 0 (current_hp (opponent who) st - damage).
Proof.
  assert (Htarget : (if BattleSimulator.eq_pokemon1 who st
                     then opponent who else P1) = opponent who).
  { destruct who; simpl; [done|]. by case_bool_decide. }
  assert (Hshape :
    ((st' = st
      ∧ BattleSimulator.attacking_moves (BattleSimulator.get_pokemon who st) = [])
     ∨ ∃ move r0 damage is_critical status_inflicted defender r,
         move ∈ BattleSimulator.attacking_moves
                  (BattleSimulator.get_pokemon who st)
         ∧ BattleSimulator._calculate_damage db
             (BattleSimulator.get_pokemon who st)
             (BattleSimulator.get_pokemon (opponent who) st) move r0
           = Ok ((damage, is_critical, status_inflicted), defender, r)
         ∧ let st1 := BattleSimulator.set_rng r
                        (BattleSimulator.set_pokemon (opponent who) defender st) in
           st' = if BattleSimulator.eq_pokemon1 who st1
                 then BattleSimulator.set_hp2
                        (Z.max 0 (current_hp2 st1 - damage)) st1
                 else BattleSimulator.set_hp1
                        (Z.max 0 (current_hp1 st1 - damage)) st1) →
    (st' = st
     ∧ Forall (fun m => move_power m ≤ 0)
         (moves (BattleSimulator.get_pokemon who st)))
    ∨ ∃ move r0 damage is_critical status_inflicted defender r,
        move ∈ moves (BattleSimulator.get_pokemon who st)
        ∧ move_power move > 0
        ∧ BattleSimulator._calculate_damage db
            (BattleSimulator.get_pokemon who st)
            (BattleSimulator.get_pokemon (opponent who) st) move r0
          = Ok ((damage, is_critical, status_inflicted), defender, r)
        ∧ 1 ≤ damage
        ∧ BattleSimulator.get_pokemon (opponent who) st' = defender
        ∧ BattleSimulator.get_pokemon who st'
          = BattleSimulator.get_pokemon who st
        ∧ if bool_decide (pokemon2 st' = pokemon1 st')
          then current_hp1 st' = current_hp1 st
               ∧ current_hp2 st' = Z.max 0 (current_hp2 st - damage)
          else current_hp who st' = current_hp who st
               ∧ current_hp (opponent who) st'
                 = Z.max 0 (current_hp (opponent who) st - damage)).
  { intros [[-> Hnone] | (move & r0 & damage & crit & inflicted & defender & r
                          & Hin & Hcalc & ->)].
    { left. split; [done|]. by apply no_attacking_moves_no_positive_power. }
    right. exists move, r0, damage, crit, inflicted, defender, r.
    apply list_elem_of_filter in Hin as [Hpower Hin].
    split; [done|]. split; [done|]. split; [done|].
    split; [by eapply calculate_damage_floor|].
    destruct who; simpl.
    - split; [done|]. split; [done|]. by case_bool_decide.
    - case_bool_decide as Heq; simpl;
        rewrite ?(bool_decide_eq_true_2 _ Heq), ?(bool_decide_eq_false_2 _ Heq);
        done. }
  intros [H | H]; apply Hshape.
  - apply first_attack_resolved in H. by rewrite Htarget in H.
  - by apply second_attack_resolved in H.
Qed.

(** Two attacks of 32: one is taken from the counter of the other combatant,
    the other, between two equal combatants, from the attacker's own
    [current_hp2]. *)
Lemma who_takes_the_damage_witness :
  (let st := BattleSimulator.initial_state normal_attacker fire_attacker
               even_random in
   ∃ td' st',
     BattleSimulator.first_attack neutral_db P2 P1 (mkTurn 1 []) st
     = Ok (td', st')
     ∧ current_hp1 st' = 88
     ∧ current_hp2 st' = 100)
  ∧ (let st := BattleSimulator.initial_state normal_attacker normal_attacker
                 even_random in
     ∃ td' st',
       BattleSimulator.second_attack neutral_db P1 P2 (mkTurn 1 []) st
       = Ok (td', st')
       ∧ current_hp1 st' = 120
       ∧ current_hp2 st' = 88).
Proof.
  cbv zeta. split.
  - destruct (BattleSimulator.first_attack neutral_db P2 P1 (mkTurn 1 [])
                (BattleSimulator.initial_state normal_attacker fire_attacker
                   even_random)) as [[td' st']|e] eqn:Hattack;
      [|vm_compute in Hattack; discriminate].
    destruct (who_takes_the_damage neutral_db P2 (mkTurn 1 []) td' _ st'
                (or_introl Hattack))
      as [[_ Hnone] | (move & r0 & damage & crit & inflicted & defender & r
                       & _ & _ & _ & _ & _ & _ & Hhp)].
    { apply Forall_inv in Hnone. vm_compute in Hnone. by destruct Hnone. }
    exists td', st'. split; [reflexivity|].
    vm_compute in Hattack. injection Hattack as <- <-.
    rewrite bool_decide_eq_false_2 in Hhp by (simpl; discriminate).
    destruct Hhp as [Hown _]. split; [reflexivity | exact Hown].
  - destruct (BattleSimulator.second_attack neutral_db P1 P2 (mkTurn 1 [])
                (BattleSimulator.initial_state normal_attacker normal_attacker
                   even_random)) as [[td' st']|e] eqn:Hattack;
      [|vm_compute in Hattack; discriminate].
    destruct (who_takes_the_damage neutral_db P2 (mkTurn 1 []) td' _ st'
                (or_intror Hattack))
      as [[_ Hnone] | (move & r0 & damage & crit & inflicted & defender & r
                       & _ & _ & _ & _ & _ & _ & Hhp)].
    { apply Forall_inv in Hnone. vm_compute in Hnone. by destruct Hnone. }
    exists td', st'. split; [reflexivity|].
    vm_compute in Hattack. injection Hattack as <- <-.
    rewrite bool_decide_eq_true_2 in Hhp by reflexivity.
    destruct Hhp as [Hspared _]. split; [exact Hspared | reflexivity].
Defined.

(** X15: in a battle of a combatant against its equal by value (the same
    species on both sides), where the combatant has no condition and none
    of its moves is in the status table, the two objects stay equal and
    every attack of either side is taken from [current_hp2]: the HP counter
    of [pokemon1] never changes. *)
Theorem mirror_match_spares_pokemon1 (db : PokemonDatabase) (p : Pokemon)
    (r : Random) (st : BattleState) :
  status_effects p = [] →
  (∀ m, m ∈ moves p →
        (BattleSimulator._get_move_status_chance (move_name m)).1 = None) →
  reachable db (BattleSimulator.initial_state p p r) st →
  pokemon1 st = p ∧ pokemon2 st = p ∧ current_hp1 st = hp p.
Proof.
  intros Hstatus Hmoves Hreach.
  eapply (rtc_ind_r
            (fun st => pokemon1 st = p ∧ pokemon2 st = p ∧ current_hp1 st = hp p));
    [ | | exact Hreach]; [done|].
  clear st Hreach. intros st st' _ Hstep (H1 & H2 & Hhp).
  assert (Hget : ∀ who, BattleSimulator.get_pokemon who st = p)
    by (by intros []).
  assert (Hattack : ∀ attacker target move r0 damage crit inflicted defender r1,
    move ∈ moves (BattleSimulator.get_pokemon attacker st) →
    BattleSimulator._calculate_damage db
      (BattleSimulator.get_pokemon attacker st)
      (BattleSimulator.get_pokemon target st) move r0
    = Ok ((damage, crit, inflicted), defender, r1) →
    let st1 := BattleSimulator.set_rng r1
                 (BattleSimulator.set_pokemon target defender st) in
    pokemon1 st1 = p ∧ pokemon2 st1 = p
    ∧ BattleSimulator.eq_pokemon1 attacker st1 = true).
  { intros attacker target move r0 damage crit inflicted defender r1 Hin Hcalc.
    rewrite Hget in Hin. rewrite !Hget in Hcalc.
    apply calculate_damage_outcome in Hcalc as [_ Hout].
    assert (defender = p) as ->.
    { destruct inflicted as [status|]; [|done].
      destruct Hout as [Htable _]. by rewrite (Hmoves move Hin) in Htable. }
    cbv zeta. destruct target, attacker; simpl; rewrite ?H1, ?H2;
      repeat split; try done; by apply bool_decide_eq_true_2. }
  destruct Hstep as [st | st st' Hphase | td st]; [done| |done].
  destruct Hphase as [who td st | f s td st td' st' H | f s td st td' st' H
                     | pkmn td st].
  - rewrite gate_exact, Hget. unfold StatusEffectManager.can_move.
    rewrite Hstatus. simpl. by destruct who.
  - apply first_attack_cases in H
      as [-> | (move & r0 & damage & crit & inflicted & defender & r1
                & Hin & Hcalc & ->)]; [done|].
    destruct (Hattack _ _ _ _ _ _ _ _ _ Hin Hcalc) as (E1 & E2 & ->).
    simpl. repeat split; try done.
    by destruct (if BattleSimulator.eq_pokemon1 f st then s else P1).
  - apply second_attack_cases in H
      as [-> | (move & r0 & damage & crit & inflicted & defender & r1
                & Hin & Hcalc & ->)]; [done|].
    destruct (Hattack _ _ _ _ _ _ _ _ _ Hin Hcalc) as (E1 & E2 & ->).
    simpl. repeat split; try done. by destruct f.
  - unfold BattleSimulator.status_phase.
    destruct (_ || _); [|done]. rewrite Hget.
    unfold StatusEffectManager.process_status_damage. rewrite Hstatus. done.
Qed.

Lemma mirror_match_spares_pokemon1_witness :
  ∃ st,
    BattleSimulator.run_battle 100 neutral_db normal_attacker normal_attacker
      even_random = Some (Ok st)
    ∧ current_hp2 st = 0
    ∧ current_hp1 st = 120.
Proof.
  destruct (BattleSimulator.run_battle 100 neutral_db normal_attacker
              normal_attacker even_random) as [[st|e]|] eqn:Hrun;
    [|vm_compute in Hrun; discriminate..].
  pose proof (battle_loop_reachable _ _ _ _ Hrun) as Hreach.
  destruct (mirror_match_spares_pokemon1 neutral_db normal_attacker
              even_random st eq_refl) as (_ & _ & Hhp); [|exact Hreach|].
  - intros m ->%list_elem_of_singleton. reflexivity.
  - exists st. split; [reflexivity|]. split; [|exact Hhp].
    vm_compute in Hrun. by injection Hrun as <-.
Defined.

(** ** The tool *)

Lemma prepare_pokemon_name data p :
  prepare_pokemon_for_battle data = Ok p → name p = identifier data.
Proof.
  unfold prepare_pokemon_for_battle. intros H.
  repeat (apply bind_Ok in H as (? & _ & H)).
  injection H as <-. reflexivity.
Qed.

Lemma run_battle_names fuel db p1 p2 r st :
  BattleSimulator.run_battle fuel db p1 p2 r = Some (Ok st) →
  name (pokemon1 st) = name p1 ∧ name (pokemon2 st) = name p2.
Proof.
  intros Hreach%battle_loop_reachable.
  eapply (rtc_ind_r
            (fun st => name (pokemon1 st) = name p1
                       ∧ name (pokemon2 st) = name p2));
    [ | | exact Hreach]; [done|].
  intros mid st' _ [Hb1 Hb2]%battle_step_bodies [IH1 IH2].
  by rewrite (same_body_name _ _ Hb1), (same_body_name _ _ Hb2).
Qed.

(** X16: [simulate_pokemon_battle] always answers.  It reports "Pokemon not
    found" with the name as given exactly when the provider does not know
    the lower-cased name, [pokemon1_name] first; whatever is raised
    afterwards comes back as an error response; and a report names the two
    identifiers the provider returned, counts at most 100 turns, carries
    the turn records exactly when [detailed] is set, as many as
    [total_turns], and has for winner one of the two reported names or
    none, in which case the summary says that the battle was a draw. *)
Theorem tool_response_is_consistent
    (get_pokemon_by_name : string → option PokemonData) (db : PokemonDatabase)
    (pokemon1_name pokemon2_name : string) (detailed : bool) (r : Random)
    (extra : nat) :
  ∃ response,
    simulate_pokemon_battle (100 + extra) get_pokemon_by_name db
      pokemon1_name pokemon2_name detailed r = Some response
    ∧ match response with
      | ErrorResponse error =>
          (get_pokemon_by_name (Py.lower pokemon1_name) = None
           ∧ error = "Pokemon not found: " +:+ pokemon1_name)
          ∨ (is_Some (get_pokemon_by_name (Py.lower pokemon1_name))
             ∧ get_pokemon_by_name (Py.lower pokemon2_name) = None
             ∧ error = "Pokemon not found: " +:+ pokemon2_name)
      | SimulationFailed e =>
          is_Some (get_pokemon_by_name (Py.lower pokemon1_name))
          ∧ is_Some (get_pokemon_by_name (Py.lower pokemon2_name))
      | Report report =>
          ∃ data1 data2,
            get_pokemon_by_name (Py.lower pokemon1_name) = Some data1
            ∧ get_pokemon_by_name (Py.lower pokemon2_name) = Some data2
            ∧ report_pokemon1 report = identifier data1
            ∧ report_pokemon2 report = identifier data2
            ∧ 0 ≤ total_turns report ≤ 100
            ∧ (if detailed
               then ∃ l, detailed_turns report = Some l
                         ∧ Z.of_nat (length l) = total_turns report
               else detailed_turns report = None)
            ∧ (report_winner report = Some (identifier data1)
               ∨ report_winner report = Some (identifier data2)
               ∨ (report_winner report = None
                  ∧ report_battle_summary report = "Battle ended in a draw"))
      end.
Proof.
  unfold simulate_pokemon_battle.
  destruct (get_pokemon_by_name (Py.lower pokemon1_name)) as [data1|] eqn:H1;
    [|eexists; split; [reflexivity|]; by left].
  destruct (get_pokemon_by_name (Py.lower pokemon2_name)) as [data2|] eqn:H2;
    [|eexists; split; [reflexivity|]; right; split; [by eexists | done]].
  destruct (prepare_pokemon_for_battle data1) as [p1|e] eqn:Hp1;
    [|eexists; split; [reflexivity|]; simpl; split; by eexists].
  destruct (prepare_pokemon_for_battle data2) as [p2|e] eqn:Hp2;
    [|eexists; split; [reflexivity|]; simpl; split; by eexists].
  apply prepare_pokemon_name in Hp1, Hp2.
  unfold BattleSimulator.simulate_battle.
  destruct (battle_loop_terminates db (100 + extra)
              (BattleSimulator.initial_state p1 p2 r))
    as (outcome & Hloop & Hlen); [simpl; lia..|].
  unfold BattleSimulator.run_battle. rewrite Hloop.
  destruct outcome as [st|e];
    [|eexists; split; [reflexivity|]; simpl; split; by eexists].
  eexists. split; [reflexivity|].
  exists data1, data2. simpl.
  specialize (Hlen st eq_refl).
  destruct (run_battle_names _ _ _ _ _ _ Hloop) as [Hn1 Hn2].
  split; [done|]. split; [done|]. split; [done|]. split; [done|].
  split; [lia|]. split.
  - destruct detailed; [eauto | done].
  - rewrite Hn1, Hn2, Hp1, Hp2.
    repeat case_bool_decide; auto.
Qed.

(** ** The burn of the attacker *)

Lemma max_one_half d : Z.max 1 (Z.max 1 d / 2) = Z.max 1 (d / 2).
Proof.
  destruct (Z.le_gt_cases d 1) as [Hd|Hd].
  - rewrite (Z.max_l 1 d) by done.
    assert (d / 2 ≤ 1 / 2) by (apply Z.div_le_mono; lia).
    change (1 / 2) with 0 in *. lia.
  - rewrite (Z.max_r 1 d) by lia. done.
Qed.

(** X17: a burn on the attacker halves what a physical move deals, rounded
    down and never below 1, and changes nothing else of the attack: for two
    attackers that differ in their conditions only, one burned and one not,
    the same move against the same defender with the same draws gives the
    same critical hit, the same inflicted status, the same defender and the
    same generator; the damage of the burned one is [max 1 (damage / 2)] for
    a physical move and the same damage otherwise. *)
Theorem burn_halves_physical_damage (db : PokemonDatabase)
    (healthy burned defender : Pokemon) (move : Move) (r : Random)
    (damage : Z) (is_critical : bool) (status_inflicted : option StatusEffect)
    (defender' : Pokemon) (r' : Random) :
  same_body healthy burned →
  BURN ∉ status_effects healthy →
  BURN ∈ status_effects burned →
  0 < move_power move →
  BattleSimulator._calculate_damage db healthy defender move r
  = Ok ((damage, is_critical, status_inflicted), defender', r') →
  BattleSimulator._calculate_damage db burned defender move r
  = Ok ((if bool_decide (move_damage_class move = "physical")
         then Z.max 1 (damage / 2) else damage,
         is_critical, status_inflicted), defender', r').
Proof.
  intros Hbody Hhealthy Hburned Hpower.
  assert (attack burned = attack healthy) as Hattack by by rewrite Hbody.
  assert (special_attack burned = special_attack healthy) as Hspecial
    by by rewrite Hbody.
  assert (types burned = types healthy) as Htypes by by rewrite Hbody.
  unfold BattleSimulator._calculate_damage.
  rewrite Hattack, Hspecial, Htypes.
  unfold mbind, Result_bind.
  destruct (_ || _) eqn:Hzero.
  { apply orb_prop in Hzero as [?%bool_decide_eq_true|?%bool_decide_eq_true]; lia. }
  cbv zeta.
  destruct (BattleSimulator.base_damage_formula _ _ _) as [base|e]; [|done].
  destruct (random.random r) as [x r1].
  destruct (Py.int_truediv 1 16) as [crit|e]; [|done].
  destruct (random.uniform _ _ r1) as [factor r2].
  destruct (Py.float_to_int _) as [d|e]; [|done].
  unfold StatusEffectManager.modify_damage, Py.contains.
  rewrite (bool_decide_eq_false_2 _ Hhealthy), (bool_decide_eq_true_2 _ Hburned).
  destruct (BattleSimulator._get_move_status_chance _) as [status_effect chance].
  destruct (match status_effect with Some _ => _ | None => _ end)
    as [[inflicted q] r3].
  intros [= <- <- <- <- <-]. f_equal. f_equal. f_equal. f_equal.
  destruct (bool_decide (move_damage_class move = "physical"));
    [by rewrite max_one_half | done].
Qed.

Lemma burn_halves_physical_damage_witness :
  ∃ r',
    BattleSimulator._calculate_damage neutral_db
      (set_status normal_attacker [BURN] ∅) fire_attacker tackle even_random
    = Ok ((16, false, None), fire_attacker, r').
Proof.
  destruct (BattleSimulator._calculate_damage neutral_db normal_attacker
              fire_attacker tackle even_random)
    as [[[[[damage is_critical] status_inflicted] defender'] r']|e] eqn:Hhealthy;
    [|vm_compute in Hhealthy; discriminate].
  exists r'.
  rewrite (burn_halves_physical_damage neutral_db normal_attacker
             (set_status normal_attacker [BURN] ∅) fire_attacker tackle
             even_random damage is_critical status_inflicted defender' r');
    [ | reflexivity | apply not_elem_of_nil | apply list_elem_of_here
      | reflexivity | exact Hhealthy ].
  vm_compute in Hhealthy. injection Hhealthy as <- <- <- <- <-.
  reflexivity.
Defined.
